(** * TimeoutCond: a condition variable with bounded waits

    A model of [concurrent/cond.go].  The Go functions are written as
    programs over the primitive actions they perform (atomic counter
    operations, channel operations, lock operations, clock reads); an
    interleaving small-step semantics runs a pool of goroutines that call
    them on one shared [TimeoutCond].

    What the model fixes:
    - the locker behaves as [sync.Mutex]: [Lock] waits while the lock is
      held, any goroutine may [Unlock], and [Unlock] of an unlocked lock is
      the fatal error of the runtime;
    - the channels are unbuffered: a send in a [select] with a [default]
      goes through only if a goroutine is asleep in a receive on the channel,
      a receive completes by meeting a send or because the channel is
      closed;
    - a goroutine that arrives at a receive and finds nothing ready puts
      itself in the queue of the channel and goes to sleep, in a step of
      its own; a send reaches only a goroutine that is in the queue, so
      between the [Unlock] of a wait and that step [Signal] finds nobody
      and takes its default case;
    - one clock serves [time.Now] and the timers; the tick of a timer can
      be delivered at any moment once the clock has reached its deadline,
      and a [select] with several ready cases may take any of them;
    - a panic ends the process: no goroutine moves after one has
      panicked, and the deferred calls that a panic raised by the runtime
      would still run are left out. *)

From Stdlib Require Import ZArith Lia Bool.
From stdpp Require Import base list strings.

Open Scope Z_scope.

(** ** Machine integers *)

Module U64.
Definition modulus : Z := 2 ^ 64.
(** [math.MaxUint64] *)
Definition MaxUint64 : Z := modulus - 1.
Definition wrap (z : Z) : Z := z mod modulus.
(** [x + y] on [uint64] *)
Definition add (x y : Z) : Z := wrap (x + y).
(** [^x] on [uint64] *)
Definition not (x : Z) : Z := Z.lxor x (Z.ones 64).
End U64.

Module I64.
Definition half : Z := 2 ^ 63.
Definition MinInt64 : Z := - half.
Definition MaxInt64 : Z := half - 1.
Definition in_range (z : Z) : Prop := MinInt64 <= z <= MaxInt64.
(** two's-complement result of an [int64] operation *)
Definition wrap (z : Z) : Z := (z + half) mod (2 ^ 64) - half.
(** [x - y] on [int64] and on [time.Duration] *)
Definition sub (x y : Z) : Z := wrap (x - y).
End I64.

(** ** Data *)

(** A channel value is a handle into the channel store. *)
Definition chan := nat.
(** A goroutine identifier. *)
Definition tid := nat.
(** The channel returned by [time.After]: it becomes ready once the clock
    has reached the deadline it carries. *)
Definition timer := Z.

(** [type TimeoutCond struct { L sync.Locker; signal chan int; hasWaiters uint64 }] *)
Record TimeoutCond := mkCond {
  L : nat;
  signal : chan;
  hasWaiters : Z
}.

(** ** Programs

    A Go function body is a tree of primitive actions; each action hands
    its result to the rest of the body. *)
Inductive prog (R : Type) : Type :=
| Ret (r : R)
| Panic (msg : string)
| AddUint64 (delta : Z) (k : Z -> prog R)
| LoadUint64 (k : Z -> prog R)
| GetSignal (k : chan -> prog R)
| SetSignal (c : chan) (k : prog R)
| MakeChan (k : chan -> prog R)
| CloseChan (c : chan) (k : prog R)
| LockL (k : prog R)
| UnlockL (k : prog R)
| NowUnixNano (k : Z -> prog R)
| TimeAfter (d : Z) (k : timer -> prog R)
| Recv (c : chan) (k : Z * bool -> prog R)
| SelectRecvTimer (c : chan) (tm : timer) (k : option (Z * bool) -> prog R)
| SelectSendDefault (c : chan) (v : Z) (k : bool -> prog R).

Arguments Ret {R} r.
Arguments Panic {R} msg.
Arguments AddUint64 {R} delta k.
Arguments LoadUint64 {R} k.
Arguments GetSignal {R} k.
Arguments SetSignal {R} c k.
Arguments MakeChan {R} k.
Arguments CloseChan {R} c k.
Arguments LockL {R} k.
Arguments UnlockL {R} k.
Arguments NowUnixNano {R} k.
Arguments TimeAfter {R} d k.
Arguments Recv {R} c k.
Arguments SelectRecvTimer {R} c tm k.
Arguments SelectSendDefault {R} c v k.

(** Sequencing; a panic skips the rest. *)
Fixpoint bind {A B : Type} (p : prog A) (f : A -> prog B) : prog B :=
  match p with
  | Ret r => f r
  | Panic m => Panic m
  | AddUint64 d k => AddUint64 d (fun v => bind (k v) f)
  | LoadUint64 k => LoadUint64 (fun v => bind (k v) f)
  | GetSignal k => GetSignal (fun c => bind (k c) f)
  | SetSignal c k => SetSignal c (bind k f)
  | MakeChan k => MakeChan (fun c => bind (k c) f)
  | CloseChan c k => CloseChan c (bind k f)
  | LockL k => LockL (bind k f)
  | UnlockL k => UnlockL (bind k f)
  | NowUnixNano k => NowUnixNano (fun v => bind (k v) f)
  | TimeAfter d k => TimeAfter d (fun tm => bind (k tm) f)
  | Recv c k => Recv c (fun r => bind (k r) f)
  | SelectRecvTimer c tm k => SelectRecvTimer c tm (fun r => bind (k r) f)
  | SelectSendDefault c v k => SelectSendDefault c v (fun b => bind (k b) f)
  end.

Notation "p ;;; q" := (bind p (fun _ => q))
  (at level 100, right associativity).

(** [defer d] followed by [body]: the deferred call runs when the body
    ends, by a return or by a panic, and the outcome of the body is kept. *)
Fixpoint finally {R : Type} (body : prog R) (d : prog unit) : prog R :=
  match body with
  | Ret r => d ;;; Ret r
  | Panic m => d ;;; Panic m
  | AddUint64 dl k => AddUint64 dl (fun v => finally (k v) d)
  | LoadUint64 k => LoadUint64 (fun v => finally (k v) d)
  | GetSignal k => GetSignal (fun c => finally (k c) d)
  | SetSignal c k => SetSignal c (finally k d)
  | MakeChan k => MakeChan (fun c => finally (k c) d)
  | CloseChan c k => CloseChan c (finally k d)
  | LockL k => LockL (finally k d)
  | UnlockL k => UnlockL (finally k d)
  | NowUnixNano k => NowUnixNano (fun v => finally (k v) d)
  | TimeAfter dl k => TimeAfter dl (fun tm => finally (k tm) d)
  | Recv c k => Recv c (fun r => finally (k r) d)
  | SelectRecvTimer c tm k => SelectRecvTimer c tm (fun r => finally (k r) d)
  | SelectSendDefault c v k => SelectSendDefault c v (fun b => finally (k b) d)
  end.

Definition defer {R : Type} (d : prog unit) (body : prog R) : prog R :=
  finally body d.

(** ** The functions of [cond.go] *)

Definition too_many_waiters : string :=
  "too many waiters; max is 18446744073709551615".
Definition remove_twice : string :=
  "removeWaiter called more than once after addWaiter".

Definition addWaiter : prog unit :=
  AddUint64 1 (fun v =>
  if v =? 0 then Panic too_many_waiters else Ret tt).

Definition removeWaiter : prog unit :=
  AddUint64 (U64.not 0) (fun v =>
  if v =? U64.MaxUint64 then Panic remove_twice else Ret tt).

Definition HasWaiters : prog bool :=
  LoadUint64 (fun v => Ret (0 <? v)).

Definition Wait : prog bool :=
  addWaiter ;;;
  GetSignal (fun ch =>
  UnlockL (
  defer removeWaiter (
  defer (LockL (Ret tt)) (
  Recv ch (fun '(_, ok) =>
  Ret (negb ok)))))).

Definition WaitWithTimeout (timeout : Z) : prog (Z * bool) :=
  addWaiter ;;;
  GetSignal (fun ch =>
  UnlockL (
  defer removeWaiter (
  defer (LockL (Ret tt)) (
  NowUnixNano (fun begin =>
  TimeAfter timeout (fun tm =>
  SelectRecvTimer ch tm (fun r =>
  match r with
  | Some (_, ok) =>
      NowUnixNano (fun end_ =>
      let remainTimeout := I64.sub timeout (I64.sub end_ begin) in
      Ret (remainTimeout, negb ok))
  | None => Ret (0, false)
  end))))))).

Definition Signal : prog unit :=
  GetSignal (fun ch =>
  SelectSendDefault ch 1 (fun _ => Ret tt)).

Definition Interrupt : prog unit :=
  LockL (
  defer (UnlockL (Ret tt)) (
  GetSignal (fun ch =>
  CloseChan ch (
  MakeChan (fun ch' =>
  SetSignal ch' (
  Ret tt)))))).

(** [func NewTimeoutCond(l sync.Locker) *TimeoutCond]: the channel store
    grows by the channel that [make(chan int, 0)] creates; [hasWaiters]
    has its zero value. *)
Definition NewTimeoutCond (l : nat) (chans : list bool) : list bool * TimeoutCond :=
  (chans ++ [false], mkCond l (length chans) 0).

(** ** Calls and results *)

(** What a goroutine may call: the methods of [TimeoutCond], and
    [Lock]/[Unlock] on the locker it shares with the condition. *)
Inductive call :=
| CLock
| CUnlock
| CWait
| CWaitWithTimeout (timeout : Z)
| CSignal
| CInterrupt
| CHasWaiters.

(** What a call returns. *)
Inductive retval :=
| RUnit
| RBool (b : bool)
| RDurBool (d : Z) (b : bool).

(** The body that a call runs. *)
Definition call_prog (c : call) : prog retval :=
  match c with
  | CLock => LockL (Ret RUnit)
  | CUnlock => UnlockL (Ret RUnit)
  | CWait => bind Wait (fun b => Ret (RBool b))
  | CWaitWithTimeout d => bind (WaitWithTimeout d) (fun '(r, b) => Ret (RDurBool r b))
  | CSignal => bind Signal (fun _ => Ret RUnit)
  | CInterrupt => bind Interrupt (fun _ => Ret RUnit)
  | CHasWaiters => bind HasWaiters (fun b => Ret (RBool b))
  end.

(** ** Shared state *)

Record world := mkWorld {
  cond : TimeoutCond;
  (** the locker [cond.L] refers to: [None] when unlocked, [Some t] when
      locked by a [Lock] of goroutine [t] *)
  holder : option tid;
  (** the channels made so far; [true] marks a closed channel.  The
      channels are unbuffered, so a channel has no other state. *)
  chans : list bool;
  (** nanoseconds on the clock *)
  clock : Z
}.

Definition set_hasWaiters (v : Z) (w : world) : world :=
  mkWorld (mkCond (L (cond w)) (signal (cond w)) v) (holder w) (chans w) (clock w).
Definition set_signal (c : chan) (w : world) : world :=
  mkWorld (mkCond (L (cond w)) c (hasWaiters (cond w))) (holder w) (chans w) (clock w).
Definition set_holder (h : option tid) (w : world) : world :=
  mkWorld (cond w) h (chans w) (clock w).
Definition set_chans (cs : list bool) (w : world) : world :=
  mkWorld (cond w) (holder w) cs (clock w).
Definition set_clock (z : Z) (w : world) : world :=
  mkWorld (cond w) (holder w) (chans w) z.

(** ** Actions as they are observed *)

(** The messages of the runtime. *)
Definition closed_close : string := "close of closed channel".
Definition nil_close : string := "close of nil channel".
Definition closed_send : string := "send on closed channel".
Definition unlocked_unlock : string := "sync: unlock of unlocked mutex".

Inductive act :=
| ACall (c : call)
| AReturn (r : retval)
| AAdd (delta v : Z)           (* [atomic.AddUint64] returned [v] *)
| ALoad (v : Z)
| AGetSignal (c : chan)
| ASetSignal (c : chan)
| AMake (c : chan)
| AClose (c : chan)
| ALock
| AUnlock
| ANow (v : Z)
| AAfter (tm : timer)
| ARecvClosed (c : chan)       (* the receive saw the channel closed *)
| ARecvFrom (s : tid) (c : chan) (v : Z)  (* the receive met the send of [s] *)
| ATimer                       (* the select took the timer case *)
| ASend (c : chan) (v : Z)     (* the select took the send case *)
| ADefault (c : chan)          (* the select took the default case *)
| AFail (msg : string).        (* the runtime raised a panic *)

(** How a program goes on once its first action has been answered. *)
Definition react {R : Type} (p : prog R) (a : act) : option (prog R) :=
  match p, a with
  | AddUint64 d k, AAdd d' v => if decide (d = d') then Some (k v) else None
  | LoadUint64 k, ALoad v => Some (k v)
  | GetSignal k, AGetSignal c => Some (k c)
  | SetSignal c k, ASetSignal c' => if decide (c = c') then Some k else None
  | MakeChan k, AMake c => Some (k c)
  | CloseChan c k, AClose c' => if decide (c = c') then Some k else None
  | CloseChan _ _, AFail m => Some (Panic m)
  | LockL k, ALock => Some k
  | UnlockL k, AUnlock => Some k
  | UnlockL _, AFail m => Some (Panic m)
  | NowUnixNano k, ANow v => Some (k v)
  | TimeAfter d k, AAfter tm => Some (k tm)
  | Recv c k, ARecvClosed c' => if decide (c = c') then Some (k (0, false)) else None
  | Recv c k, ARecvFrom _ c' v => if decide (c = c') then Some (k (v, true)) else None
  | SelectRecvTimer c _ k, ARecvClosed c' =>
      if decide (c = c') then Some (k (Some (0, false))) else None
  | SelectRecvTimer c _ k, ARecvFrom _ c' v =>
      if decide (c = c') then Some (k (Some (v, true))) else None
  | SelectRecvTimer _ _ k, ATimer => Some (k None)
  | SelectSendDefault c v k, ASend c' v' =>
      if decide (c = c' /\ v = v') then Some (k true) else None
  | SelectSendDefault c _ k, ADefault c' => if decide (c = c') then Some (k false) else None
  | SelectSendDefault _ _ _, AFail m => Some (Panic m)
  | _, _ => None
  end.

(** ** Goroutines *)

Inductive thread :=
| Idle
| Active (c : call) (p : prog retval).

Record state := mkState {
  shared : world;
  pool : list thread;
  (** [true] for a goroutine that is asleep in the receive it is at, in
      the queue of that channel *)
  queued : list bool
}.

(** The goroutines that are asleep in a receive, each at its place in the
    pool; [Idle] stands for a goroutine that is not asleep. *)
Definition asleep (ths : list thread) (q : list bool) : list thread :=
  zip_with (fun th (b : bool) => if b then th else Idle) ths q.

(** A goroutine at a receive on [c]: at [<-c] or at the [select] of
    [WaitWithTimeout]. *)
Definition receiving (c : chan) (th : thread) : bool :=
  match th with
  | Active _ (Recv c' _) => bool_decide (c' = c)
  | Active _ (SelectRecvTimer c' _ _) => bool_decide (c' = c)
  | _ => false
  end.

(** Some goroutine of [ths] is at a receive on [c]. *)
Definition parked (c : chan) (ths : list thread) : bool := existsb (receiving c) ths.

Definition panicked (th : thread) : bool :=
  match th with
  | Active _ (Panic _) => true
  | _ => false
  end.

(** A panic that no one recovers ends the process. *)
Definition crashed (ths : list thread) : bool := existsb panicked ths.

(** The answer of the runtime to the first action of [p] when goroutine
    [t] runs it by itself, and the shared state it leaves; [None] when the
    goroutine cannot move by itself.  [ths] are the goroutines that are
    asleep in a receive.
    - [atomic.AddUint64] wraps modulo 2^64 and returns the new value;
    - [make] returns a channel that did not exist;
    - [close] of a closed channel panics;
    - [Lock] waits for the lock to be free;
    - [time.After d] gives a timer due [d] after now;
    - a receive completes by itself only on a closed channel (a value
      needs a sender, see [step_deliver]; the timer case is
      [step_timeout]);
    - the select of [Signal] panics on a closed channel, takes the
      default case when nobody is asleep in a receive on the channel, and
      otherwise has to deliver. *)
Definition perform {R : Type} (t : tid) (w : world) (ths : list thread) (p : prog R)
  : option (act * world) :=
  match p with
  | Ret _ => None
  | Panic _ => None
  | AddUint64 d _ =>
      let v := U64.add (hasWaiters (cond w)) d in
      Some (AAdd d v, set_hasWaiters v w)
  | LoadUint64 _ => Some (ALoad (hasWaiters (cond w)), w)
  | GetSignal _ => Some (AGetSignal (signal (cond w)), w)
  | SetSignal c _ => Some (ASetSignal c, set_signal c w)
  | MakeChan _ => Some (AMake (length (chans w)), set_chans (chans w ++ [false]) w)
  | CloseChan c _ =>
      match chans w !! c with
      | Some false => Some (AClose c, set_chans (<[c := true]> (chans w)) w)
      | Some true => Some (AFail closed_close, w)
      | None => Some (AFail nil_close, w)
      end
  | LockL _ =>
      match holder w with
      | None => Some (ALock, set_holder (Some t) w)
      | Some _ => None
      end
  | UnlockL _ =>
      match holder w with
      | Some _ => Some (AUnlock, set_holder None w)
      | None => Some (AFail unlocked_unlock, w)
      end
  | NowUnixNano _ => Some (ANow (I64.wrap (clock w)), w)
  | TimeAfter d _ => Some (AAfter (clock w + d), w)
  | Recv c _ =>
      match chans w !! c with
      | Some true => Some (ARecvClosed c, w)
      | _ => None
      end
  | SelectRecvTimer c _ _ =>
      match chans w !! c with
      | Some true => Some (ARecvClosed c, w)
      | _ => None
      end
  | SelectSendDefault c _ _ =>
      match chans w !! c with
      | Some true => Some (AFail closed_send, w)
      | _ => if parked c ths then None else Some (ADefault c, w)
      end
  end.

(** ** Steps *)

(** The choice of the scheduler. *)
Inductive label :=
| Call (t : tid) (c : call)   (* idle goroutine [t] calls [c] *)
| Sched (t : tid)             (* [t] runs its next action by itself *)
| Deliver (s r : tid)         (* the send of [s] meets the receive of [r] *)
| Timeout (t : tid)           (* the select of [t] takes the timer case *)
| Return (t : tid)            (* the call of [t] returns *)
| Tick (d : Z)                (* time passes *)
| Park (t : tid).             (* [t] goes to sleep in its receive *)

(** An action together with the goroutine that performed it. *)
Definition event : Type := tid * act.

(** Some goroutine is asleep in a receive on [c]: the queue of [c] is not
    empty. *)
Definition blocked (c : chan) (s : state) : bool :=
  parked c (asleep (pool s) (queued s)).

(** The actions that end a receive: whoever performs one is not in a
    queue afterwards. *)
Definition wakes (a : act) : bool :=
  match a with
  | ARecvClosed _ | ARecvFrom _ _ _ | ATimer => true
  | _ => false
  end.

Definition after_act (a : act) (t : tid) (q : list bool) : list bool :=
  if wakes a then <[t := false]> q else q.

(** A receive that finds nothing ready: the channel is open.  (The tick
    of the timer is delivered to the [select] of [WaitWithTimeout] by
    [step_timeout], whether the goroutine is asleep or not.) *)
Definition must_wait (w : world) (th : thread) : bool :=
  match th with
  | Active _ (Recv c _) => bool_decide (chans w !! c = Some false)
  | Active _ (SelectRecvTimer c _ _) => bool_decide (chans w !! c = Some false)
  | _ => false
  end.

Definition set_thread (t : tid) (th : thread) (s : state) : state :=
  mkState (shared s) (<[t := th]> (pool s)) (queued s).

(** An idle goroutine starts a call. *)
Definition step_call (t : tid) (c : call) (s : state) : option (list event * state) :=
  match pool s !! t with
  | Some Idle => Some ([(t, ACall c)], set_thread t (Active c (call_prog c)) s)
  | _ => None
  end.

(** A goroutine performs the next action of its call. *)
Definition step_sched (t : tid) (s : state) : option (list event * state) :=
  match pool s !! t with
  | Some (Active c p) =>
      match perform t (shared s) (asleep (pool s) (queued s)) p with
      | Some (a, w) =>
          match react p a with
          | Some p' =>
              Some ([(t, a)],
                    mkState w (<[t := Active c p']> (pool s)) (after_act a t (queued s)))
          | None => None
          end
      | None => None
      end
  | _ => None
  end.

(** The send in the select of [sd] meets the receive [rc] is asleep in;
    the channel is open. *)
Definition step_deliver (sd rc : tid) (s : state) : option (list event * state) :=
  match pool s !! sd, pool s !! rc with
  | Some (Active cs (SelectSendDefault c v ks as ps)), Some (Active cr pr) =>
      if bool_decide (sd <> rc) && receiving c (Active cr pr)
         && bool_decide (queued s !! rc = Some true)
         && bool_decide (chans (shared s) !! c = Some false)
      then
        match react ps (ASend c v), react pr (ARecvFrom sd c v) with
        | Some ps', Some pr' =>
            Some ([(rc, ARecvFrom sd c v); (sd, ASend c v)],
                  mkState (shared s)
                    (<[rc := Active cr pr']> (<[sd := Active cs ps']> (pool s)))
                    (<[rc := false]> (queued s)))
        | _, _ => None
        end
      else None
  | _, _ => None
  end.

(** The timer of the select of [t] is due and the select takes it. *)
Definition step_timeout (t : tid) (s : state) : option (list event * state) :=
  match pool s !! t with
  | Some (Active c (SelectRecvTimer ch tm k as p)) =>
      if bool_decide (tm <= clock (shared s)) then
        match react p ATimer with
        | Some p' =>
            Some ([(t, ATimer)],
                  mkState (shared s) (<[t := Active c p']> (pool s))
                          (<[t := false]> (queued s)))
        | None => None
        end
      else None
  | _ => None
  end.

(** A call that has run to its end returns. *)
Definition step_return (t : tid) (s : state) : option (list event * state) :=
  match pool s !! t with
  | Some (Active c (Ret r)) => Some ([(t, AReturn r)], set_thread t Idle s)
  | _ => None
  end.

(** The clock advances. *)
Definition step_tick (d : Z) (s : state) : option (list event * state) :=
  if bool_decide (0 < d)
  then Some ([], mkState (set_clock (clock (shared s) + d) (shared s)) (pool s) (queued s))
  else None.

(** A goroutine that has arrived at a receive and finds nothing ready
    puts itself in the queue of the channel and goes to sleep. *)
Definition step_park (t : tid) (s : state) : option (list event * state) :=
  match pool s !! t, queued s !! t with
  | Some th, Some false =>
      if must_wait (shared s) th
      then Some ([], mkState (shared s) (pool s) (<[t := true]> (queued s)))
      else None
  | _, _ => None
  end.

(** One step of the whole program; nothing moves once it has crashed. *)
Definition step (s : state) (l : label) : option (list event * state) :=
  if crashed (pool s) then None else
  match l with
  | Call t c => step_call t c s
  | Sched t => step_sched t s
  | Deliver sd rc => step_deliver sd rc s
  | Timeout t => step_timeout t s
  | Return t => step_return t s
  | Tick d => step_tick d s
  | Park t => step_park t s
  end.

(** Executions; the history lists the events newest first. *)
Inductive run (s0 : state) : list event -> state -> Prop :=
| run_start : run s0 [] s0
| run_step h s l evs s' :
    run s0 h s -> step s l = Some (evs, s') -> run s0 (evs ++ h) s'.

(** The same as a function of the scheduler's choices. *)
Fixpoint exec (s : state) (h : list event) (ls : list label) : option (list event * state) :=
  match ls with
  | [] => Some (h, s)
  | l :: ls' =>
      match step s l with
      | Some (evs, s') => exec s' (evs ++ h) ls'
      | None => None
      end
  end.

(** A fresh condition on locker [l], [n] idle goroutines, the clock at [now]. *)
Definition init (l : nat) (n : nat) (now : Z) : state :=
  let '(cs, c) := NewTimeoutCond l [] in
  mkState (mkWorld c None cs now) (replicate n Idle) (replicate n false).

(** The actions of [t] since its latest call, newest first. *)
Fixpoint since_call (t : tid) (h : list event) : list act :=
  match h with
  | [] => []
  | (u, a) :: h' =>
      if decide (u = t) then
        match a with
        | ACall _ => []
        | _ => a :: since_call t h'
        end
      else since_call t h'
  end.

(** The program left of [p0] after the actions [acts] (newest first). *)
Fixpoint after {R : Type} (p0 : prog R) (acts : list act) : option (prog R) :=
  match acts with
  | [] => Some p0
  | a :: older =>
      match after p0 older with
      | Some p => react p a
      | None => None
      end
  end.

(** The steps as a relation. *)
Inductive step_spec (s : state) : label -> list event -> state -> Prop :=
| sp_call t c :
    pool s !! t = Some Idle ->
    step_spec s (Call t c) [(t, ACall c)] (set_thread t (Active c (call_prog c)) s)
| sp_sched t c p a w p' :
    pool s !! t = Some (Active c p) ->
    perform t (shared s) (asleep (pool s) (queued s)) p = Some (a, w) ->
    react p a = Some p' ->
    step_spec s (Sched t) [(t, a)]
      (mkState w (<[t := Active c p']> (pool s)) (after_act a t (queued s)))
| sp_deliver sd rc cs c v ks cr pr ps' pr' :
    pool s !! sd = Some (Active cs (SelectSendDefault c v ks)) ->
    pool s !! rc = Some (Active cr pr) ->
    sd <> rc ->
    receiving c (Active cr pr) = true ->
    queued s !! rc = Some true ->
    chans (shared s) !! c = Some false ->
    react (SelectSendDefault c v ks) (ASend c v) = Some ps' ->
    react pr (ARecvFrom sd c v) = Some pr' ->
    step_spec s (Deliver sd rc) [(rc, ARecvFrom sd c v); (sd, ASend c v)]
      (mkState (shared s) (<[rc := Active cr pr']> (<[sd := Active cs ps']> (pool s)))
               (<[rc := false]> (queued s)))
| sp_timeout t c ch tm k p' :
    pool s !! t = Some (Active c (SelectRecvTimer ch tm k)) ->
    tm <= clock (shared s) ->
    react (SelectRecvTimer ch tm k) ATimer = Some p' ->
    step_spec s (Timeout t) [(t, ATimer)]
      (mkState (shared s) (<[t := Active c p']> (pool s)) (<[t := false]> (queued s)))
| sp_return t c r :
    pool s !! t = Some (Active c (Ret r)) ->
    step_spec s (Return t) [(t, AReturn r)] (set_thread t Idle s)
| sp_tick d :
    0 < d ->
    step_spec s (Tick d) []
      (mkState (set_clock (clock (shared s) + d) (shared s)) (pool s) (queued s))
| sp_park t th :
    pool s !! t = Some th ->
    queued s !! t = Some false ->
    must_wait (shared s) th = true ->
    step_spec s (Park t) [] (mkState (shared s) (pool s) (<[t := true]> (queued s))).

(** What a step does to the goroutine it moves. *)
Inductive moves : thread -> act -> thread -> Prop :=
| mv_call c : moves Idle (ACall c) (Active c (call_prog c))
| mv_act c p a p' : react p a = Some p' -> moves (Active c p) a (Active c p')
| mv_return c r : moves (Active c (Ret r)) (AReturn r) Idle.

(** The actions since the latest call, after one more action. *)
Definition push (a : act) (older : list act) : list act :=
  match a with
  | ACall _ => []
  | _ => a :: older
  end.

(** The program of an active goroutine is the body of the function it
    called, advanced by the actions it has performed since the call. *)
Definition consistent (h : list event) (s : state) : Prop :=
  forall t c p, pool s !! t = Some (Active c p) ->
    after (call_prog c) (since_call t h) = Some p.

(** No call is in progress. *)
Definition all_idle (s : state) : Prop :=
  forall t th, pool s !! t = Some th -> th = Idle.

(** ** The actions of each function, in order *)

(** How a receive ended. *)
Inductive wake :=
| WClose                      (* close-all: the channel was closed *)
| WPost (s : tid) (x : Z)     (* post-one: goroutine [s] sent [x] *)
| WTimer.                     (* the timer of [WaitWithTimeout] fired *)

Definition wake_act (ch : chan) (w : wake) : act :=
  match w with
  | WClose => ARecvClosed ch
  | WPost s x => ARecvFrom s ch x
  | WTimer => ATimer
  end.

(** The second clock read of [WaitWithTimeout] happens on the receive
    case only. *)
Definition wake_acts (ch : chan) (w : wake) (e : Z) : list act :=
  match w with
  | WTimer => [ATimer]
  | _ => [ANow e; wake_act ch w]
  end.

(** Entry of both waits: count, capture, unlock (newest first). *)
Definition entered (v : Z) (ch : chan) : list act :=
  [AUnlock; AGetSignal ch; AAdd 1 v].

Arguments U64.not : simpl never.
Arguments U64.add : simpl never.
Arguments U64.wrap : simpl never.
Arguments U64.MaxUint64 : simpl never.
Arguments I64.sub : simpl never.

(** [shape c acts]: [acts] (newest first) is what a goroutine can have done
    since it called [c]. *)
Inductive shape : call -> list act -> Prop :=
| sh_start c : shape c []
| sh_lock : shape CLock [ALock]
| sh_unlock : shape CUnlock [AUnlock]
| sh_unlock_fail m : shape CUnlock [AFail m]
| sh_has v : shape CHasWaiters [ALoad v]
| sh_sig_get ch : shape CSignal [AGetSignal ch]
| sh_sig_send ch : shape CSignal [ASend ch 1; AGetSignal ch]
| sh_sig_default ch : shape CSignal [ADefault ch; AGetSignal ch]
| sh_sig_fail ch m : shape CSignal [AFail m; AGetSignal ch]
| sh_int_lock : shape CInterrupt [ALock]
| sh_int_get ch : shape CInterrupt [AGetSignal ch; ALock]
| sh_int_close ch : shape CInterrupt [AClose ch; AGetSignal ch; ALock]
| sh_int_close_fail ch m : shape CInterrupt [AFail m; AGetSignal ch; ALock]
| sh_int_make ch ch' : shape CInterrupt [AMake ch'; AClose ch; AGetSignal ch; ALock]
| sh_int_set ch ch' :
    shape CInterrupt [ASetSignal ch'; AMake ch'; AClose ch; AGetSignal ch; ALock]
| sh_int_unlock ch ch' :
    shape CInterrupt [AUnlock; ASetSignal ch'; AMake ch'; AClose ch; AGetSignal ch; ALock]
| sh_int_unlock_fail ch ch' m :
    shape CInterrupt [AFail m; ASetSignal ch'; AMake ch'; AClose ch; AGetSignal ch; ALock]
| sh_w_add v : shape CWait [AAdd 1 v]
| sh_w_get v ch : v <> 0 -> shape CWait [AGetSignal ch; AAdd 1 v]
| sh_w_unlock_fail v ch m : v <> 0 -> shape CWait [AFail m; AGetSignal ch; AAdd 1 v]
| sh_w_unlock v ch : v <> 0 -> shape CWait (entered v ch)
| sh_w_recv v ch w : v <> 0 -> w <> WTimer -> shape CWait (wake_act ch w :: entered v ch)
| sh_w_lock v ch w :
    v <> 0 -> w <> WTimer -> shape CWait (ALock :: wake_act ch w :: entered v ch)
| sh_w_remove v ch w v' :
    v <> 0 -> w <> WTimer ->
    shape CWait (AAdd (U64.not 0) v' :: ALock :: wake_act ch w :: entered v ch)
| sh_t_add d v : shape (CWaitWithTimeout d) [AAdd 1 v]
| sh_t_get d v ch : v <> 0 -> shape (CWaitWithTimeout d) [AGetSignal ch; AAdd 1 v]
| sh_t_unlock_fail d v ch m :
    v <> 0 -> shape (CWaitWithTimeout d) [AFail m; AGetSignal ch; AAdd 1 v]
| sh_t_unlock d v ch : v <> 0 -> shape (CWaitWithTimeout d) (entered v ch)
| sh_t_now d v ch b : v <> 0 -> shape (CWaitWithTimeout d) (ANow b :: entered v ch)
| sh_t_after d v ch b tm :
    v <> 0 -> shape (CWaitWithTimeout d) (AAfter tm :: ANow b :: entered v ch)
| sh_t_recv d v ch b tm w :
    v <> 0 -> w <> WTimer ->
    shape (CWaitWithTimeout d) (wake_act ch w :: AAfter tm :: ANow b :: entered v ch)
| sh_t_woken d v ch b tm w e :
    v <> 0 ->
    shape (CWaitWithTimeout d) (wake_acts ch w e ++ AAfter tm :: ANow b :: entered v ch)
| sh_t_lock d v ch b tm w e :
    v <> 0 ->
    shape (CWaitWithTimeout d)
      (ALock :: wake_acts ch w e ++ AAfter tm :: ANow b :: entered v ch)
| sh_t_remove d v ch b tm w e v' :
    v <> 0 ->
    shape (CWaitWithTimeout d)
      (AAdd (U64.not 0) v' :: ALock :: wake_acts ch w e ++ AAfter tm :: ANow b :: entered v ch).

(** ** How a wait was woken *)

(** The actions that end a receive. *)
Definition act_wake (a : act) : option wake :=
  match a with
  | ARecvClosed _ => Some WClose
  | ARecvFrom s _ x => Some (WPost s x)
  | ATimer => Some WTimer
  | _ => None
  end.

Fixpoint last_wake (acts : list act) : option wake :=
  match acts with
  | [] => None
  | a :: older =>
      match act_wake a with
      | Some w => Some w
      | None => last_wake older
      end
  end.

(** What ended the receive of the current call of [t]. *)
Definition woken_by (t : tid) (h : list event) : option wake :=
  last_wake (since_call t h).

(** Woken by close-all. *)
Definition is_close (w : wake) : bool :=
  match w with
  | WClose => true
  | _ => false
  end.

(** ** Goroutine names *)

(** Two goroutines. *)
Definition T0 : tid := 0%nat.
Definition T1 : tid := 1%nat.

(** ** One goroutine by itself *)

(** Goroutine [t] runs [p] while no other goroutine moves: the shared
    state and the program that are left after at most [fuel] actions. *)
Fixpoint alone {R : Type} (fuel : nat) (t : tid) (ths : list thread) (w : world)
  (p : prog R) : world * prog R :=
  match fuel with
  | O => (w, p)
  | S fuel' =>
      match perform t w ths p with
      | Some (a, w') =>
          match react p a with
          | Some p' => alone fuel' t ths w' p'
          | None => (w, p)
          end
      | None => (w, p)
      end
  end.

(** The shared state right after [NewTimeoutCond l]. *)
Definition fresh (l : nat) : world := shared (init l 0 0).

(** Entries into and exits from a wait, as they touch the counter. *)
Inductive wait_event :=
| Enter
| Exit.

Definition counter_call (e : wait_event) : prog unit :=
  match e with
  | Enter => addWaiter
  | Exit => removeWaiter
  end.

(** The shared state after the counter calls of [es]; [None] if one of
    them panics. *)
Fixpoint after_waits (w : world) (es : list wait_event) : option world :=
  match es with
  | [] => Some w
  | e :: es' =>
      match alone 1 T0 [] w (counter_call e) with
      | (w', Ret _) => after_waits w' es'
      | _ => None
      end
  end.

(** What [HasWaiters()] returns in [w]. *)
Definition HasWaiters_in (w : world) : option bool :=
  match alone 1 T0 [] w HasWaiters with
  | (_, Ret b) => Some b
  | _ => None
  end.

(** No exit without an earlier entry of its own, with [depth] waits
    already in progress. *)
Fixpoint paired (depth : nat) (es : list wait_event) : bool :=
  match es with
  | [] => true
  | Enter :: es' => paired (S depth) es'
  | Exit :: es' =>
      match depth with
      | O => false
      | S d => paired d es'
      end
  end.

(** Entries and exits in a sequence. *)
Fixpoint entries (es : list wait_event) : nat :=
  match es with
  | [] => 0
  | Enter :: es' => S (entries es')
  | Exit :: es' => entries es'
  end.

Fixpoint exits (es : list wait_event) : nat :=
  match es with
  | [] => 0
  | Enter :: es' => exits es'
  | Exit :: es' => S (exits es')
  end.

(** The goroutine a step belongs to. *)
Definition actor (l : label) : option tid :=
  match l with
  | Call t _ => Some t
  | Sched t => Some t
  | Deliver sd _ => Some sd
  | Timeout t => Some t
  | Return t => Some t
  | Tick _ => None
  | Park t => Some t
  end.

(** ** The locking discipline *)

(** The places of the code where the goroutine running it must be the one
    that holds the lock: the waits up to their [Unlock], [Interrupt]
    between its [Lock] and its [Unlock], and the caller's own [Unlock]. *)
Definition critical (c : call) (p : prog retval) : bool :=
  match c, p with
  | (CWait | CWaitWithTimeout _), AddUint64 d _ => bool_decide (d = 1)
  | (CWait | CWaitWithTimeout _ | CInterrupt), GetSignal _ => true
  | (CWait | CWaitWithTimeout _ | CInterrupt | CUnlock), UnlockL _ => true
  | CInterrupt, (CloseChan _ _ | MakeChan _ | SetSignal _ _) => true
  | _, _ => false
  end.

(** The goroutine is at such a place. *)
Definition holds_lock (th : thread) : bool :=
  match th with
  | Idle => false
  | Active c p => critical c p
  end.

(** [Interrupt] between its [close] and the store of the new channel:
    the only place where the stored channel is a closed one. *)
Definition window (th : thread) : bool :=
  match th with
  | Active CInterrupt (MakeChan _) => true
  | Active CInterrupt (SetSignal _ _) => true
  | _ => false
  end.

(** The precondition of the waits: a goroutine calls [Wait],
    [WaitWithTimeout] (and [Unlock]) only while it holds the lock. *)
Definition allowed (s : state) (l : label) : Prop :=
  match l with
  | Call t CWait => holder (shared s) = Some t
  | Call t (CWaitWithTimeout _) => holder (shared s) = Some t
  | Call t CUnlock => holder (shared s) = Some t
  | _ => True
  end.

(** Executions in which the callers keep the discipline. *)
Inductive run_ok (s0 : state) : list event -> state -> Prop :=
| run_ok_start : run_ok s0 [] s0
| run_ok_step h s l evs s' :
    run_ok s0 h s -> allowed s l -> step s l = Some (evs, s') -> run_ok s0 (evs ++ h) s'.

(** What the discipline maintains. *)
Record safe (s : state) : Prop := mkSafe {
  (** the lock is held by whoever is in a critical place *)
  safe_lock : forall t th,
    pool s !! t = Some th -> holds_lock th = true -> holder (shared s) = Some t;
  (** [Interrupt] closes the stored channel, which is open *)
  safe_close : forall t ch k,
    pool s !! t = Some (Active CInterrupt (CloseChan ch k)) ->
    ch = signal (cond (shared s)) /\ chans (shared s) !! ch = Some false;
  (** [Interrupt] stores an open channel *)
  safe_store : forall t ch k,
    pool s !! t = Some (Active CInterrupt (SetSignal ch k)) ->
    chans (shared s) !! ch = Some false;
  (** outside of the window the stored channel is open *)
  safe_open :
    existsb window (pool s) = false ->
    chans (shared s) !! signal (cond (shared s)) = Some false;
  (** [Interrupt] has not panicked *)
  safe_calm : forall t m, pool s !! t <> Some (Active CInterrupt (Panic m))
}.

(** Every active goroutine is somewhere in the function it called. *)
Definition wellformed (s : state) : Prop :=
  forall t c p, pool s !! t = Some (Active c p) ->
    exists acts, shape c acts /\ after (call_prog c) acts = Some p.

(** The scheduler's choices [ls] keep the discipline from [s] on. *)
Fixpoint disciplined (s : state) (ls : list label) : Prop :=
  match ls with
  | [] => True
  | l :: ls' =>
      allowed s l /\
      match step s l with
      | Some (_, s') => disciplined s' ls'
      | None => True
      end
  end.

(** ** Histories *)

(** The actions of [t] in [h]. *)
Fixpoint mine (t : tid) (h : list event) : list act :=
  match h with
  | [] => []
  | (u, a) :: h' => if decide (u = t) then a :: mine t h' else mine t h'
  end.

(** [t] starts no call in [h]. *)
Definition no_call (t : tid) (h : list event) : Prop :=
  forall c, ~ In (t, ACall c) h.

(** Goroutine [t] performed [a] in [h], while it was executing [c]. *)
Definition performed (s0 : state) (h : list event) (t : tid) (c : call) (a : act) : Prop :=
  exists h1 h2 s1 p,
    h = h2 ++ (t, a) :: h1 /\ run s0 h1 s1 /\ pool s1 !! t = Some (Active c p).

(** In its current call, goroutine [t] read [cond.signal] and found
    [ch] there. *)
Definition captured (s0 : state) (h : list event) (t : tid) (ch : chan) : Prop :=
  exists h1 h2 s1,
    h = h2 ++ (t, AGetSignal ch) :: h1 /\ no_call t h2 /\
    run s0 h1 s1 /\ ch = signal (cond (shared s1)).

(** Whenever a value is received on a channel, the channel has not been
    closed before. *)
Fixpoint posts_open (h : list event) : Prop :=
  match h with
  | [] => True
  | (_, a) :: h' =>
      posts_open h' /\
      match a with
      | ARecvFrom _ ch _ => forall ti, ~ In (ti, AClose ch) h'
      | _ => True
      end
  end.

(** The two waits. *)
Definition is_wait (c : call) : bool :=
  match c with
  | CWait => true
  | CWaitWithTimeout _ => true
  | _ => false
  end.

(** The flag a wait returns. *)
Definition interrupted (r : retval) : option bool :=
  match r with
  | RUnit => None
  | RBool b => Some b
  | RDurBool _ b => Some b
  end.

(** ** Counting the waiters *)

(** A goroutine that has incremented the counter and not yet decremented
    it: inside a wait, past the first [AddUint64] and before the end. *)
Definition counted (th : thread) : bool :=
  match th with
  | Idle => false
  | Active c p =>
      is_wait c &&
      match p with
      | AddUint64 d _ => negb (bool_decide (d = 1))
      | Ret _ => false
      | Panic _ => false
      | _ => true
      end
  end.

(** How many goroutines are counted. *)
Fixpoint waiting (ths : list thread) : Z :=
  match ths with
  | [] => 0
  | th :: ths' => Z.b2z (counted th) + waiting ths'
  end.

(** While the process runs, the counter is the number of goroutines
    inside a wait. *)
Definition counting (s : state) : Prop :=
  crashed (pool s) = false ->
  hasWaiters (cond (shared s)) = waiting (pool s) /\ waiting (pool s) < U64.modulus.

(** No wait has panicked in its [removeWaiter]. *)
Definition paired_exits (s : state) : Prop :=
  forall t c, is_wait c = true -> pool s !! t <> Some (Active c (Panic remove_twice)).

(** ** The order of a wait and the waiters of a closed generation *)

(** The order of the actions of a completed [Wait], oldest first, as the
    claim C6 has it: the counter is decremented before the lock is taken
    again. *)
Definition wait_order_claimed (acts : list act) : Prop :=
  exists v ch w v',
    acts = [AAdd 1 v; AGetSignal ch; AUnlock; wake_act ch w; AAdd (U64.not 0) v'; ALock].

(** The order the deferred calls give: they run last registered first, so
    the lock is taken again before the counter is decremented. *)
Definition wait_order (acts : list act) : Prop :=
  exists v ch w v',
    w <> WTimer /\
    acts = [AAdd 1 v; AGetSignal ch; AUnlock; wake_act ch w; ALock; AAdd (U64.not 0) v'].

(** The part of C4 on the waiters of the closed generation, as the claim
    has it: every wait that captured a channel which an [Interrupt] has
    closed returns [interrupted = true]. *)
Definition close_wakes_every_captor : Prop :=
  forall l n now h s t c r ti ch,
    run_ok (init l n now) h s ->
    pool s !! t = Some (Active c (Ret r)) ->
    is_wait c = true ->
    In (AGetSignal ch) (since_call t h) ->
    In (ti, AClose ch) h ->
    interrupted r = Some true.

(** ** Sample executions *)

(** History and state after the choices [ls], if they can all be made. *)
Definition outcome (s0 : state) (ls : list label) : list event * state :=
  default ([], s0) (exec s0 [] ls).

(** [T0] takes the lock, waits and goes to sleep; [T1] interrupts; [T0]
    returns. *)
Definition interrupted_wait : list label :=
  [Call T0 CLock; Sched T0; Return T0;
   Call T0 CWait; Sched T0; Sched T0; Sched T0; Park T0;
   Call T1 CInterrupt; Sched T1; Sched T1; Sched T1; Sched T1; Sched T1; Sched T1;
   Return T1;
   Sched T0; Sched T0; Sched T0].

(** [T0] waits for at most 5ns; [T1] signals after 10ns, just as [T0]
    is about to give up. *)
Definition late_signal : list label :=
  [Call T0 CLock; Sched T0; Return T0;
   Call T0 (CWaitWithTimeout 5); Sched T0; Sched T0; Sched T0; Sched T0; Sched T0;
   Park T0;
   Call T1 CSignal; Sched T1; Tick 10; Deliver T1 T0; Return T1;
   Sched T0; Sched T0; Sched T0].

(** [late_signal] up to the point where the signal is about to be
    delivered. *)
Definition signal_pending : list label :=
  [Call T0 CLock; Sched T0; Return T0;
   Call T0 (CWaitWithTimeout 5); Sched T0; Sched T0; Sched T0; Sched T0; Sched T0;
   Park T0;
   Call T1 CSignal; Sched T1; Tick 10].

(** The step that delivers it. *)
Definition signal_delivered : list event * state :=
  default ([], init 0 2 0)
    (step (snd (outcome (init 0 2 0) signal_pending)) (Deliver T1 T0)).

(** One whole call of [Interrupt] by goroutine [t], nobody else moving. *)
Definition interrupt_once (t : tid) : list label :=
  [Call t CInterrupt; Sched t; Sched t; Sched t; Sched t; Sched t; Sched t; Return t].

(** [ls], [k] times over. *)
Fixpoint repeated (k : nat) (ls : list label) : list label :=
  match k with
  | O => []
  | S k' => ls ++ repeated k' ls
  end.

(** The state [k] interrupts after [init l n now]: [k] closed channels and
    a fresh open one, which is the stored one. *)
Definition after_interrupts (l n : nat) (now : Z) (k : nat) : state :=
  mkState (mkWorld (mkCond l k 0) None (replicate k true ++ [false]) now)
          (replicate n Idle) (replicate n false).

(** [interrupted_wait] up to the end of the [Interrupt] of [T1], before
    it returns. *)
Definition interrupt_done : list label :=
  [Call T0 CLock; Sched T0; Return T0;
   Call T0 CWait; Sched T0; Sched T0; Sched T0; Park T0;
   Call T1 CInterrupt; Sched T1; Sched T1; Sched T1; Sched T1; Sched T1; Sched T1].

(** [T0] enters [WaitWithTimeout 5] and releases the lock; [T1] runs a
    whole [Interrupt]; [T0] reads the clock, starts its timer and is held
    up for 10ns; its select then finds both the closed channel and the
    timer ready, and takes the timer. *)
Definition timer_beats_close : list label :=
  [Call T0 CLock; Sched T0; Return T0;
   Call T0 (CWaitWithTimeout 5); Sched T0; Sched T0; Sched T0]
  ++ interrupt_once T1
  ++ [Sched T0; Sched T0; Tick 10; Timeout T0; Sched T0; Sched T0].

(** [T0] waits for at most 5ns, nobody signals, 5ns pass and the timer
    fires. *)
Definition timed_out : list label :=
  [Call T0 CLock; Sched T0; Return T0;
   Call T0 (CWaitWithTimeout 5); Sched T0; Sched T0; Sched T0; Sched T0; Sched T0;
   Tick 5; Timeout T0; Sched T0; Sched T0].

(** * The full discipline, and further definitions *)

(** A wait past its deferred [Lock]: about to decrement the counter, or
    at its return. *)
Definition relocked (th : thread) : bool :=
  match th with
  | Idle => false
  | Active c p =>
      is_wait c &&
      match p with
      | AddUint64 d _ => negb (bool_decide (d = 1))
      | Ret _ => true
      | _ => false
      end
  end.

(** Every goroutine that is back under the lock at the end of its wait is
    the holder of the lock. *)
Definition relocking (s : state) : Prop :=
  forall t th, pool s !! t = Some th -> relocked th = true -> holder (shared s) = Some t.

(** [T0] holds the lock and has just called [Wait]. *)
Definition wait_called : list label :=
  [Call T0 CLock; Sched T0; Return T0; Call T0 CWait].

(** The full discipline: the waits and the caller's [Unlock] as before,
    and [Signal] too is called with the lock held. *)
Definition allowed_strict (s : state) (l : label) : Prop :=
  allowed s l /\
  match l with
  | Call t CSignal => holder (shared s) = Some t
  | _ => True
  end.

Inductive run_strict (s0 : state) : list event -> state -> Prop :=
| run_strict_start : run_strict s0 [] s0
| run_strict_step h s l evs s' :
    run_strict s0 h s -> allowed_strict s l -> step s l = Some (evs, s') ->
    run_strict s0 (evs ++ h) s'.

(** [Signal] before the outcome of its select. *)
Definition signalling (th : thread) : bool :=
  match th with
  | Active CSignal (GetSignal _) => true
  | Active CSignal (SelectSendDefault _ _ _) => true
  | _ => false
  end.

(** What the full discipline adds: [Signal] runs under the lock, and the
    channel it sends on is the stored one, and is open. *)
Record strict (s : state) : Prop := mkStrict {
  strict_lock : forall t th,
    pool s !! t = Some th -> signalling th = true -> holder (shared s) = Some t;
  strict_send : forall t c v k,
    pool s !! t = Some (Active CSignal (SelectSendDefault c v k)) ->
    c = signal (cond (shared s)) /\ chans (shared s) !! c = Some false
}.

(** The choices [ls] keep the full discipline from [s] on. *)
Fixpoint disciplined_strict (s : state) (ls : list label) : Prop :=
  match ls with
  | [] => True
  | l :: ls' =>
      allowed_strict s l /\
      match step s l with
      | Some (_, s') => disciplined_strict s' ls'
      | None => True
      end
  end.

(** [T0] takes the lock, waits and goes to sleep; [T1] takes the lock,
    signals, and unlocks; [T0] takes the lock again and returns. *)
Definition signalled_wait : list label :=
  [Call T0 CLock; Sched T0; Return T0;
   Call T0 CWait; Sched T0; Sched T0; Sched T0; Park T0;
   Call T1 CLock; Sched T1; Return T1;
   Call T1 CSignal; Sched T1; Deliver T1 T0; Return T1;
   Call T1 CUnlock; Sched T1; Return T1;
   Sched T0; Sched T0].

(** The choices that the discipline never restricts. *)
Definition unrestricted (l : label) : bool :=
  match l with
  | Call _ CWait | Call _ (CWaitWithTimeout _) | Call _ CUnlock => false
  | _ => true
  end.

(** [T0] holds the lock, has called [Wait] and has counted itself. *)
Definition wait_counted : list label := wait_called ++ [Sched T0].

(** ** [Signal] with nobody waiting *)

(** [T0] calls [Signal] without the lock and reads the stored channel;
    [T1] runs [Interrupt] up to its [close]; the select of [T0] then
    sends on the closed channel.  Nobody waits. *)
Definition signal_race : list label :=
  [Call T0 CSignal; Sched T0; Call T1 CInterrupt; Sched T1; Sched T1; Sched T1;
   Sched T0].

(** C8 as the claim has it, for the panic: where no goroutine ever waits,
    so that no goroutine is ever blocked on any channel, [Signal] does not
    panic. *)
Definition Signal_harmless_claimed : Prop :=
  forall l n now h s t m,
    run_ok (init l n now) h s ->
    (forall u c, In (u, ACall c) h -> is_wait c = false) ->
    pool s !! t <> Some (Active CSignal (Panic m)).

(** [T0] takes the lock, calls [Wait] and releases the lock in it; it has
    not gone to sleep yet when [T1] takes the lock. *)
Definition waiter_in_gap : list label :=
  [Call T0 CLock; Sched T0; Return T0;
   Call T0 CWait; Sched T0; Sched T0; Sched T0;
   Call T1 CLock; Sched T1; Return T1].

(** One whole call of [Signal] by goroutine [t], nobody else moving and
    nobody to deliver to. *)
Definition signal_once (t : tid) : list label :=
  [Call t CSignal; Sched t; Sched t; Return t].

(** * Proofs *)

(** ** The step function, case by case *)

Lemma step_inv s l evs s' :
  step s l = Some (evs, s') -> crashed (pool s) = false /\ step_spec s l evs s'.
Proof.
  unfold step. destruct (crashed (pool s)) eqn:Hc; [discriminate|].
  intros H. split; [reflexivity|].
  destruct l as [t c|t|sd rc|t|t|d|t]; simpl in H.
  - unfold step_call in H. destruct (pool s !! t) as [[|]|] eqn:Ht; inversion H; subst.
    now constructor.
  - unfold step_sched in H. destruct (pool s !! t) as [[|c p]|] eqn:Ht; try discriminate.
    destruct (perform t (shared s) (asleep (pool s) (queued s)) p) as [[a w]|] eqn:Hp;
      try discriminate.
    destruct (react p a) as [p'|] eqn:Hr; inversion H; subst.
    econstructor; eauto.
  - unfold step_deliver in H.
    destruct (pool s !! sd) as [[|cs ps]|] eqn:Hs; try discriminate.
    destruct ps; try discriminate.
    destruct (pool s !! rc) as [[|cr pr]|] eqn:Hr; try discriminate.
    match type of H with (if ?b then _ else _) = _ => destruct b eqn:Hb end;
      try discriminate.
    apply andb_prop in Hb as [Hb Hb3]. apply andb_prop in Hb as [Hb Hb4].
    apply andb_prop in Hb as [Hb1 Hb2].
    apply bool_decide_eq_true in Hb1, Hb3, Hb4.
    match type of H with
    | match ?x with _ => _ end = _ => destruct x eqn:Hx1; try discriminate
    end.
    match type of H with
    | match ?x with _ => _ end = _ => destruct x eqn:Hx2; try discriminate
    end.
    inversion H; subst. econstructor; eauto.
  - unfold step_timeout in H. destruct (pool s !! t) as [[|c p]|] eqn:Ht; try discriminate.
    destruct p; try discriminate.
    case_bool_decide; try discriminate.
    match type of H with
    | match ?x with _ => _ end = _ => destruct x eqn:Hx1; try discriminate
    end.
    inversion H; subst. econstructor; eauto.
  - unfold step_return in H. destruct (pool s !! t) as [[|c p]|] eqn:Ht; try discriminate.
    destruct p; try discriminate. inversion H; subst. econstructor; eauto.
  - unfold step_tick in H. case_bool_decide; inversion H; subst. now constructor.
  - unfold step_park in H. destruct (pool s !! t) as [th|] eqn:Ht; try discriminate.
    destruct (queued s !! t) as [[|]|] eqn:Hq; try discriminate.
    destruct (must_wait (shared s) th) eqn:Hm; inversion H; subst.
    econstructor; eauto.
Qed.

(** ** What one step does to one goroutine *)

Lemma since_call_other t u a h : u <> t -> since_call t ((u, a) :: h) = since_call t h.
Proof. intros Hne. simpl. destruct (decide (u = t)); congruence. Qed.

Lemma since_call_own t a h : since_call t ((t, a) :: h) = push a (since_call t h).
Proof. simpl. destruct (decide (t = t)); [|congruence]. now destruct a. Qed.

Lemma react_not_call {R} (p : prog R) c : react p (ACall c) = None.
Proof. now destruct p. Qed.

Lemma react_push {R} (p p' : prog R) a older : react p a = Some p' -> push a older = a :: older.
Proof. destruct a; try reflexivity. now rewrite react_not_call. Qed.

Lemma lookup_set_same {A} (l : list A) i x y : l !! i = Some y -> <[i := x]> l !! i = Some x.
Proof. intros H. apply list_lookup_insert_eq. eapply lookup_lt_Some; eauto. Qed.

Lemma step_thread s l evs s' t :
  step_spec s l evs s' ->
  (pool s' !! t = pool s !! t /\ forall h, since_call t (evs ++ h) = since_call t h)
  \/ (exists th a th',
        pool s !! t = Some th /\ pool s' !! t = Some th' /\ moves th a th' /\
        In (t, a) evs /\
        forall h, since_call t (evs ++ h) = push a (since_call t h)).
Proof.
  intros H. destruct H as [u c Hu|u c p a w p' Hu Hp Hr
    |sd rc cs c v ks cr pr ps' pr' Hs Hrc Hne Hrv Hq Hch Hrs Hrr|u c ch tm k p' Hu Htm Hr
    |u c r Hu|d Hd|tp thp Htp Hqp Hmw]; cbn [pool set_thread shared].
  - destruct (decide (u = t)) as [->|Hne].
    + right. exists Idle, (ACall c), (Active c (call_prog c)).
      split_and!; [assumption|eauto using lookup_set_same|constructor|now left|].
      intros h. apply since_call_own.
    + left. split; [now apply list_lookup_insert_ne|].
      intros h. now apply since_call_other.
  - destruct (decide (u = t)) as [->|Hne].
    + right. exists (Active c p), a, (Active c p').
      split_and!; [assumption|eauto using lookup_set_same|now constructor|now left|].
      intros h. apply since_call_own.
    + left. split; [now apply list_lookup_insert_ne|].
      intros h. now apply since_call_other.
  - destruct (decide (rc = t)) as [->|Hne1].
    + right. exists (Active cr pr), (ARecvFrom sd c v), (Active cr pr').
      split_and!; [assumption| |now constructor|now left|].
      * apply list_lookup_insert_eq. rewrite length_insert. eapply lookup_lt_Some; eauto.
      * intros h. change (since_call t (((t, ARecvFrom sd c v) :: (sd, ASend c v) :: h))
                          = ARecvFrom sd c v :: since_call t h).
        rewrite since_call_own. unfold push. f_equal.
        now rewrite since_call_other.
    + destruct (decide (sd = t)) as [->|Hne2].
      * right. exists (Active cs (SelectSendDefault c v ks)), (ASend c v), (Active cs ps').
        split_and!; [assumption| |now constructor|right; now left|].
        -- rewrite list_lookup_insert_ne by assumption. eauto using lookup_set_same.
        -- intros h. change (since_call t (((rc, ARecvFrom t c v) :: (t, ASend c v) :: h))
                          = ASend c v :: since_call t h).
           rewrite since_call_other by assumption. apply since_call_own.
      * left. split; [now rewrite !list_lookup_insert_ne|].
        intros h. change (since_call t (((rc, ARecvFrom sd c v) :: (sd, ASend c v) :: h))
                          = since_call t h).
        now rewrite !since_call_other.
  - destruct (decide (u = t)) as [->|Hne].
    + right. exists (Active c (SelectRecvTimer ch tm k)), ATimer, (Active c p').
      split_and!; [assumption|eauto using lookup_set_same|now constructor|now left|].
      intros h. apply since_call_own.
    + left. split; [now apply list_lookup_insert_ne|].
      intros h. now apply since_call_other.
  - destruct (decide (u = t)) as [->|Hne].
    + right. exists (Active c (Ret r)), (AReturn r), Idle.
      split_and!; [assumption|eauto using lookup_set_same|constructor|now left|].
      intros h. apply since_call_own.
    + left. split; [now apply list_lookup_insert_ne|].
      intros h. now apply since_call_other.
  - left. auto.
  - left. auto.
Qed.

(** ** Every goroutine is where its actions have taken it *)

Lemma init_all_idle l n now : all_idle (init l n now).
Proof.
  intros t th H. simpl in H. apply lookup_replicate in H. tauto.
Qed.

Lemma run_consistent s0 h s : all_idle s0 -> run s0 h s -> consistent h s.
Proof.
  intros H0 Hrun. induction Hrun as [|h s l evs s' Hrun IH Hstep].
  - intros t c p Ht. apply H0 in Ht. discriminate.
  - apply step_inv in Hstep as [_ Hstep].
    intros t c p Ht.
    destruct (step_thread _ _ _ _ t Hstep) as [[Heq Hh]|(th & a & th' & H1 & H2 & Hm & _ & Hh)].
    + rewrite Hh. apply IH. now rewrite <- Heq.
    + rewrite Hh. rewrite H2 in Ht. injection Ht as ->.
      inversion Hm; subst.
      * reflexivity.
      * erewrite react_push by eassumption. simpl.
        now rewrite (IH _ _ _ H1).
Qed.

Lemma eqb_ne v n : v <> n -> (v =? n) = false.
Proof. intros H. now apply Z.eqb_neq. Qed.

Ltac shape_simpl :=
  repeat match goal with
  | H : ?v <> 0 |- _ =>
      match goal with
      | E : context [?v =? 0] |- _ => rewrite (eqb_ne v 0 H) in E
      end
  | H : Some _ = Some _ |- _ => injection H as H; try subst
  | H : None = Some _ |- _ => discriminate H
  | H : context [decide ?P] |- _ => destruct (decide P); try subst
  | H : _ /\ _ |- _ => destruct H; try subst
  end.

Ltac shape_done :=
  solve [ eauto; congruence ].

Ltac shape_build :=
  first
  [ econstructor; shape_done
  | eapply (sh_w_recv _ _ WClose); shape_done
  | eapply (sh_w_recv _ _ (WPost _ _)); shape_done
  | eapply (sh_w_lock _ _ WClose); shape_done
  | eapply (sh_w_lock _ _ (WPost _ _)); shape_done
  | eapply (sh_w_remove _ _ WClose); shape_done
  | eapply (sh_w_remove _ _ (WPost _ _)); shape_done
  | eapply (sh_t_recv _ _ _ _ _ WClose); shape_done
  | eapply (sh_t_recv _ _ _ _ _ (WPost _ _)); shape_done
  | eapply (sh_t_woken _ _ _ _ _ WClose); shape_done
  | eapply (sh_t_woken _ _ _ _ _ (WPost _ _)); shape_done
  | eapply (sh_t_woken _ _ _ _ _ WTimer 0); shape_done
  | eapply (sh_t_lock _ _ _ _ _ WClose); shape_done
  | eapply (sh_t_lock _ _ _ _ _ (WPost _ _)); shape_done
  | eapply (sh_t_lock _ _ _ _ _ WTimer 0); shape_done
  | eapply (sh_t_remove _ _ _ _ _ WClose); shape_done
  | eapply (sh_t_remove _ _ _ _ _ (WPost _ _)); shape_done
  | eapply (sh_t_remove _ _ _ _ _ WTimer 0); shape_done ].

Lemma after_shape c acts p : after (call_prog c) acts = Some p -> shape c acts.
Proof.
  revert p. induction acts as [|a older IH]; intros p H.
  - constructor.
  - simpl in H. destruct (after (call_prog c) older) as [q|] eqn:E; [|discriminate].
    specialize (IH _ eq_refl).
    inversion IH; subst; clear IH;
      try match goal with w : wake |- _ => destruct w; try congruence end.
    1: destruct c.
    all: repeat (progress (simpl in E; shape_simpl)).
    all: try match type of H with context [?v =? ?n] => destruct (Z.eqb_spec v n) end.
    all: destruct a; repeat (progress (simpl in H; shape_simpl)); try discriminate.
    all: shape_build.
Qed.

(** In an execution from idle goroutines, every active goroutine has the
    actions of its function behind it and the rest of the function ahead. *)
Lemma run_shape s0 h s t c p :
  all_idle s0 -> run s0 h s -> pool s !! t = Some (Active c p) ->
  shape c (since_call t h) /\ after (call_prog c) (since_call t h) = Some p.
Proof.
  intros H0 Hrun Ht. pose proof (run_consistent _ _ _ H0 Hrun _ _ _ Ht) as Ha.
  split; [eapply after_shape; eauto|assumption].
Qed.

Lemma exec_run s0 h s ls h' s' :
  run s0 h s -> exec s h ls = Some (h', s') -> run s0 h' s'.
Proof.
  revert h s. induction ls as [|l ls IH]; intros h s Hrun He; simpl in He.
  - now inversion He; subst.
  - destruct (step s l) as [[evs s1]|] eqn:Hs; [|discriminate].
    eapply IH; [|eassumption]. econstructor; eauto.
Qed.

Lemma exec_init_run s0 ls h s : exec s0 [] ls = Some (h, s) -> run s0 h s.
Proof. apply exec_run. constructor. Qed.

(** * The waits *)

(** Case analysis on where a goroutine is in its function: [Hsh] is its
    [shape], [Haf] the equation for its program. *)
Ltac by_shape Hsh Haf :=
  inversion Hsh; subst;
  try (match goal with w : wake |- _ => destruct w; try congruence end);
  repeat first
    [ progress simpl in Haf
    | match type of Haf with
      | context [?v =? ?n] => destruct (Z.eqb_spec v n); try congruence
      | context [decide ?P] => destruct (decide P); try congruence
      end ];
  try discriminate Haf; try congruence.

Lemma wrap_in_range z : I64.in_range z -> I64.wrap z = z.
Proof.
  unfold I64.in_range, I64.wrap, I64.MinInt64, I64.MaxInt64, I64.half.
  intros H. rewrite Z.mod_small; lia.
Qed.

(** C2.  When a call of [WaitWithTimeout timeout] has completed and its
    select was ended by a generation event (a close or a sent value, not
    the timer), the call read the clock right before blocking ([begin])
    and right after waking ([end_]); the duration it returns is
    [timeout - (end_ - begin)] in the arithmetic of [time.Duration], which
    is the exact difference whenever that fits in 64 bits, with no
    clamping at zero; the flag it returns is [true] exactly for a close. *)
Theorem WaitWithTimeout_signaled l n now h s t timeout r w :
  run (init l n now) h s ->
  pool s !! t = Some (Active (CWaitWithTimeout timeout) (Ret r)) ->
  woken_by t h = Some w ->
  w <> WTimer ->
  exists v ch begin tm end_ v',
    rev (since_call t h) =
      [AAdd 1 v; AGetSignal ch; AUnlock; ANow begin; AAfter tm;
       wake_act ch w; ANow end_; ALock; AAdd (U64.not 0) v'] /\
    r = RDurBool (I64.sub timeout (I64.sub end_ begin)) (is_close w) /\
    (I64.in_range (end_ - begin) -> I64.in_range (timeout - (end_ - begin)) ->
     r = RDurBool (timeout - (end_ - begin)) (is_close w)) /\
    (is_close w = true <-> w = WClose).
Proof.
  intros Hrun Ht.
  destruct (run_shape _ _ _ _ _ _ (init_all_idle l n now) Hrun Ht) as [Hsh Haf].
  unfold woken_by. revert Hsh Haf. generalize (since_call t h). intros acts Hsh Haf.
  revert w. by_shape Hsh Haf.
  all: intros w Hw Hne; simpl in Hw; injection Hw as <-; try congruence.
  all: inversion Haf; subst; do 6 eexists; (split; [reflexivity|]); simpl.
  all: split; [reflexivity|]; split; [|split; congruence].
  all: intros H1 H2; unfold I64.sub; rewrite (wrap_in_range _ H1);
    now rewrite (wrap_in_range _ H2).
Qed.

Lemma WaitWithTimeout_signaled_witness :
  run (init 0 2 0) (fst (outcome (init 0 2 0) late_signal))
      (snd (outcome (init 0 2 0) late_signal)) /\
  pool (snd (outcome (init 0 2 0) late_signal)) !! T0
    = Some (Active (CWaitWithTimeout 5) (Ret (RDurBool (-5) false))) /\
  woken_by T0 (fst (outcome (init 0 2 0) late_signal)) = Some (WPost T1 1) /\
  exists v ch begin tm end_ v',
    rev (since_call T0 (fst (outcome (init 0 2 0) late_signal))) =
      [AAdd 1 v; AGetSignal ch; AUnlock; ANow begin; AAfter tm;
       wake_act ch (WPost T1 1); ANow end_; ALock; AAdd (U64.not 0) v'] /\
    RDurBool (-5) false = RDurBool (I64.sub 5 (I64.sub end_ begin)) false /\
    (I64.in_range (end_ - begin) -> I64.in_range (5 - (end_ - begin)) ->
     RDurBool (-5) false = RDurBool (5 - (end_ - begin)) false) /\
    (false = true <-> WPost T1 1 = WClose).
Proof.
  assert (Hrun : run (init 0 2 0) (fst (outcome (init 0 2 0) late_signal))
                     (snd (outcome (init 0 2 0) late_signal))).
  { apply (exec_init_run _ late_signal). vm_compute. reflexivity. }
  split; [exact Hrun|]. split; [reflexivity|]. split; [reflexivity|].
  apply (WaitWithTimeout_signaled 0 2 0 _ _ T0 5 (RDurBool (-5) false) (WPost T1 1) Hrun);
    [reflexivity|reflexivity|discriminate].
Defined.

(** C6 as stated fails: in the execution [interrupted_wait] the call of
    [Wait] by [T0] completes, and it took the lock again before it
    decremented the counter. *)
Lemma Wait_order_claimed_fails :
  ~ (forall l n now h s t r,
       run (init l n now) h s ->
       pool s !! t = Some (Active CWait (Ret r)) ->
       wait_order_claimed (rev (since_call t h))).
Proof.
  intros H.
  assert (Hrun : run (init 0 2 0) (fst (outcome (init 0 2 0) interrupted_wait))
                     (snd (outcome (init 0 2 0) interrupted_wait))).
  { apply (exec_init_run _ interrupted_wait). vm_compute. reflexivity. }
  destruct (H 0%nat 2%nat 0 _ _ T0 (RBool true) Hrun eq_refl) as (v & ch & w & v' & Heq).
  vm_compute in Heq. destruct w; discriminate Heq.
Qed.

(** C6, amended.  A call of [Wait] that returns has, in this order,
    incremented the counter, captured the generation, released the lock,
    been woken in its receive, taken the lock again and then decremented
    the counter.  A call that ends in a panic has done the same, unless it
    ended before it released the lock. *)
Theorem Wait_order l n now h s t p :
  run (init l n now) h s ->
  pool s !! t = Some (Active CWait p) ->
  (forall r, p = Ret r -> wait_order (rev (since_call t h))) /\
  (forall m, p = Panic m ->
     wait_order (rev (since_call t h)) \/ ~ In AUnlock (since_call t h)).
Proof.
  intros Hrun Ht.
  destruct (run_shape _ _ _ _ _ _ (init_all_idle l n now) Hrun Ht) as [Hsh Haf].
  revert Hsh Haf. generalize (since_call t h). intros acts Hsh Haf.
  split.
  - intros r ->. by_shape Hsh Haf.
    + exists v, ch, WClose, v'. split; [discriminate|reflexivity].
    + exists v, ch, (WPost s0 x), v'. split; [discriminate|reflexivity].
  - intros m ->. by_shape Hsh Haf.
    all: try (right; simpl; intuition discriminate).
    + left. exists v, ch, WClose, v'. split; [discriminate|reflexivity].
    + left. exists v, ch, (WPost s0 x), v'. split; [discriminate|reflexivity].
Qed.

Lemma Wait_order_witness :
  run (init 0 2 0) (fst (outcome (init 0 2 0) interrupted_wait))
      (snd (outcome (init 0 2 0) interrupted_wait)) /\
  pool (snd (outcome (init 0 2 0) interrupted_wait)) !! T0
    = Some (Active CWait (Ret (RBool true))) /\
  wait_order (rev (since_call T0 (fst (outcome (init 0 2 0) interrupted_wait)))).
Proof.
  assert (Hrun : run (init 0 2 0) (fst (outcome (init 0 2 0) interrupted_wait))
                     (snd (outcome (init 0 2 0) interrupted_wait))).
  { apply (exec_init_run _ interrupted_wait). vm_compute. reflexivity. }
  assert (Ht : pool (snd (outcome (init 0 2 0) interrupted_wait)) !! T0
               = Some (Active CWait (Ret (RBool true)))) by (vm_compute; reflexivity).
  split; [exact Hrun|]. split; [exact Ht|].
  exact (proj1 (Wait_order 0 2 0 _ _ T0 (Ret (RBool true)) Hrun Ht) (RBool true) eq_refl).
Defined.


(** * The counter *)

Lemma not_zero : U64.not 0 = U64.MaxUint64.
Proof. reflexivity. Qed.

Lemma max_value : U64.MaxUint64 = 18446744073709551615.
Proof. reflexivity. Qed.

Lemma add_one v : 0 <= v < U64.MaxUint64 -> U64.add v 1 = v + 1.
Proof.
  rewrite max_value. intros H. unfold U64.add, U64.wrap, U64.modulus.
  rewrite Z.mod_small; lia.
Qed.

Lemma add_minus_one v : 0 < v <= U64.MaxUint64 -> U64.add v (U64.not 0) = v - 1.
Proof.
  rewrite not_zero, max_value. intros H. unfold U64.add, U64.wrap, U64.modulus.
  replace (v + 18446744073709551615) with (v - 1 + 1 * 2 ^ 64) by lia.
  rewrite Z.mod_add by lia. rewrite Z.mod_small; lia.
Qed.

(** C5.  [removeWaiter] on a counter that is zero panics (the counter has
    wrapped to [math.MaxUint64], and the call does not return), and
    [addWaiter] on a counter at [math.MaxUint64] panics (the counter has
    wrapped to zero). *)
Theorem counter_misuse_panics fuel t ths w :
  alone (S fuel) t ths (set_hasWaiters 0 w) removeWaiter
    = (set_hasWaiters U64.MaxUint64 w, Panic remove_twice) /\
  alone (S fuel) t ths (set_hasWaiters U64.MaxUint64 w) addWaiter
    = (set_hasWaiters 0 w, Panic too_many_waiters).
Proof.
  split; destruct fuel; reflexivity.
Qed.

(** Away from the two misuses the counter calls return and count. *)
Lemma addWaiter_counts t ths w :
  0 <= hasWaiters (cond w) < U64.MaxUint64 ->
  alone 1 t ths w addWaiter = (set_hasWaiters (hasWaiters (cond w) + 1) w, Ret tt).
Proof.
  intros H. simpl. rewrite add_one by assumption.
  destruct (Z.eqb_spec (hasWaiters (cond w) + 1) 0); [lia|reflexivity].
Qed.

Lemma removeWaiter_counts t ths w :
  0 < hasWaiters (cond w) <= U64.MaxUint64 ->
  alone 1 t ths w removeWaiter = (set_hasWaiters (hasWaiters (cond w) - 1) w, Ret tt).
Proof.
  intros H. simpl. rewrite add_minus_one by assumption.
  destruct (Z.eqb_spec (hasWaiters (cond w) - 1) U64.MaxUint64); [lia|reflexivity].
Qed.

Lemma paired_app depth pre suf : paired depth (pre ++ suf) = true -> paired depth pre = true.
Proof.
  revert depth. induction pre as [|[|] pre IH]; intros depth H; simpl in *.
  - reflexivity.
  - eauto.
  - destruct depth; [discriminate|eauto].
Qed.

Lemma after_waits_count es : forall depth w0 w,
  hasWaiters (cond w0) = Z.of_nat depth ->
  Z.of_nat depth <= U64.MaxUint64 ->
  paired depth es = true ->
  after_waits w0 es = Some w ->
  (exits es <= depth + entries es)%nat /\
  hasWaiters (cond w) = Z.of_nat (depth + entries es - exits es).
Proof.
  induction es as [|[|] es IH]; intros depth w0 w Hc Hd Hp Ha.
  - simpl in *. injection Ha as <-. split; [lia|]. rewrite Hc. f_equal. lia.
  - cbn [paired] in Hp. cbn [after_waits counter_call] in Ha.
    destruct (Z.eq_dec (Z.of_nat depth) U64.MaxUint64) as [Hmax|Hmax].
    + exfalso. revert Ha. simpl. rewrite Hc, Hmax. discriminate.
    + rewrite addWaiter_counts in Ha by lia.
      assert (Hc' : hasWaiters (cond (set_hasWaiters (hasWaiters (cond w0) + 1) w0))
                    = Z.of_nat (S depth)) by (simpl; lia).
      assert (Hd' : Z.of_nat (S depth) <= U64.MaxUint64) by lia.
      destruct (IH _ _ _ Hc' Hd' Hp Ha) as [H1 H2].
      simpl. split; [lia|]. rewrite H2. f_equal; lia.
  - destruct depth as [|d]; [discriminate|]. cbn [paired] in Hp.
    cbn [after_waits counter_call] in Ha.
    rewrite removeWaiter_counts in Ha by lia.
    assert (Hc' : hasWaiters (cond (set_hasWaiters (hasWaiters (cond w0) - 1) w0))
                  = Z.of_nat d) by (simpl; lia).
    assert (Hd' : Z.of_nat d <= U64.MaxUint64) by lia.
    destruct (IH _ _ _ Hc' Hd' Hp Ha) as [H1 H2].
    simpl. split; [lia|]. rewrite H2. f_equal; lia.
Qed.

(** The counter calls of a paired sequence return, short of 2^64 waits. *)
Lemma after_waits_runs es : forall depth w0,
  hasWaiters (cond w0) = Z.of_nat depth ->
  Z.of_nat depth + Z.of_nat (length es) <= U64.MaxUint64 ->
  paired depth es = true ->
  exists w, after_waits w0 es = Some w.
Proof.
  induction es as [|[|] es IH]; intros depth w0 Hc Hd Hp.
  - eauto.
  - cbn [paired] in Hp. cbn [after_waits counter_call length] in *.
    rewrite addWaiter_counts by lia.
    apply (IH (S depth)); [simpl; lia|lia|exact Hp].
  - destruct depth as [|d]; [discriminate|]. cbn [paired] in Hp.
    cbn [after_waits counter_call length] in *.
    rewrite removeWaiter_counts by lia.
    apply (IH d); [simpl; lia|lia|exact Hp].
Qed.

(** C7.  At every point of a correctly paired sequence of wait entries and
    exits on a fresh condition, [HasWaiters()] returns [true] exactly when
    more waits have been entered than left; on the fresh condition it
    returns [false].  (By [after_waits_runs] the counter calls of such a
    sequence all return as long as it is shorter than 2^64.) *)
Theorem HasWaiters_paired l pre suf w :
  paired 0 (pre ++ suf) = true ->
  after_waits (fresh l) pre = Some w ->
  HasWaiters_in w = Some (bool_decide (exits pre < entries pre)%nat) /\
  HasWaiters_in (fresh l) = Some false.
Proof.
  intros Hp Ha. apply paired_app in Hp. split; [|reflexivity].
  assert (Hd : Z.of_nat 0 <= U64.MaxUint64) by (rewrite max_value; lia).
  destruct (after_waits_count pre 0%nat (fresh l) w eq_refl Hd Hp Ha) as [H1 H2].
  unfold HasWaiters_in. simpl. rewrite H2. f_equal.
  destruct (Z.ltb_spec 0 (Z.of_nat (0 + entries pre - exits pre)));
    case_bool_decide; try reflexivity; lia.
Qed.

Lemma HasWaiters_paired_witness :
  paired 0 ([Enter; Enter; Exit] ++ [Exit]) = true /\
  after_waits (fresh 0) [Enter; Enter; Exit]
    = Some (set_hasWaiters 1 (fresh 0)) /\
  HasWaiters_in (set_hasWaiters 1 (fresh 0)) = Some true.
Proof.
  split; [reflexivity|]. split; [reflexivity|].
  exact (proj1 (HasWaiters_paired 0%nat [Enter; Enter; Exit] [Exit]
                  (set_hasWaiters 1 (fresh 0)) eq_refl eq_refl)).
Defined.

(** * Signal *)

Lemma existsb_insert_false {A} (f : A -> bool) (l : list A) i x :
  existsb f l = false -> f x = false -> existsb f (<[i := x]> l) = false.
Proof.
  revert i. induction l as [|y l IH]; intros i Hl Hx; [reflexivity|].
  simpl in Hl. apply orb_false_iff in Hl as [Hy Hl].
  destruct i; simpl.
  - now rewrite Hx, Hl.
  - now rewrite Hy, IH.
Qed.

(** C10.  A step of a goroutine that is executing [Signal] leaves the
    shared state as it was: the fields of the [TimeoutCond] (locker,
    stored channel, counter), the state of the locker and the channel
    store.  The only thing it does to another goroutine is to hand it the
    value 1 on the channel that [Signal] read from the condition. *)
Theorem Signal_frame l n now h s lab evs s' t p :
  run (init l n now) h s ->
  pool s !! t = Some (Active CSignal p) ->
  actor lab = Some t ->
  step s lab = Some (evs, s') ->
  shared s' = shared s /\
  forall u a, In (u, a) evs -> u <> t ->
    exists c, a = ARecvFrom t c 1 /\ since_call t h = [AGetSignal c] /\
              lab = Deliver t u.
Proof.
  intros Hrun Ht Hact Hstep.
  destruct (run_shape _ _ _ _ _ _ (init_all_idle l n now) Hrun Ht) as [Hsh Haf].
  apply step_inv in Hstep as [_ Hstep].
  destruct Hstep as [u c Hu|u c q a w p' Hu Hp Hr
    |sd rc cs c v ks cr pr ps' pr' Hs Hrc Hne Hrv Hq Hch Hrs Hrr|u c ch tm k p' Hu Htm Hr
    |u c r Hu|d Hd|tp thp Htp Hqp Hmw]; simpl in Hact; try discriminate; injection Hact as ->.
  - congruence.
  - rewrite Hu in Ht. inversion Ht; subst.
    assert (Hw : w = shared s).
    { revert Hsh Haf Hp. generalize (since_call t h). intros acts Hsh Haf Hp.
      by_shape Hsh Haf; inversion Haf; subst; simpl in Hp;
        repeat (match type of Hp with
                | context [match ?x with _ => _ end] => destruct x
                end); congruence. }
    subst w. split; [reflexivity|].
    intros u' a' [Hin|[]] Hne. congruence.
  - rewrite Hs in Ht. inversion Ht; subst. split; [reflexivity|].
    assert (Hacts : exists acts, Some acts = Some (since_call t h) /\ shape CSignal acts
              /\ after (call_prog CSignal) acts = Some (SelectSendDefault c v ks))
      by eauto.
    destruct Hacts as (acts & Hacts & Hsh' & Haf').
    intros u' a' Hin Hne'.
    by_shape Hsh' Haf'. inversion Haf'; subst. injection Hacts as <-.
    destruct Hin as [Hin|[Hin|[]]]; injection Hin as <- <-; [|congruence].
    eexists. split_and!; reflexivity.
  - rewrite Hu in Ht. inversion Ht; subst.
    revert Hsh Haf. generalize (since_call t h). intros acts Hsh Haf.
    by_shape Hsh Haf.
  - split; [reflexivity|]. intros u' a' [Hin|[]] Hne. congruence.
  - split; [reflexivity|]. intros u' a' [].
Qed.

Lemma Signal_frame_witness :
  run (init 0 2 0) (fst (outcome (init 0 2 0) signal_pending))
      (snd (outcome (init 0 2 0) signal_pending)) /\
  pool (snd (outcome (init 0 2 0) signal_pending)) !! T1
    = Some (Active CSignal (SelectSendDefault 0%nat 1 (fun _ => Ret RUnit))) /\
  actor (Deliver T1 T0) = Some T1 /\
  step (snd (outcome (init 0 2 0) signal_pending)) (Deliver T1 T0)
    = Some (fst signal_delivered, snd signal_delivered) /\
  shared (snd signal_delivered) = shared (snd (outcome (init 0 2 0) signal_pending)).
Proof.
  assert (Hrun : run (init 0 2 0) (fst (outcome (init 0 2 0) signal_pending))
                     (snd (outcome (init 0 2 0) signal_pending))).
  { apply (exec_init_run _ signal_pending). reflexivity. }
  assert (Ht : pool (snd (outcome (init 0 2 0) signal_pending)) !! T1
               = Some (Active CSignal (SelectSendDefault 0%nat 1 (fun _ => Ret RUnit))))
    by reflexivity.
  assert (Hstep : step (snd (outcome (init 0 2 0) signal_pending)) (Deliver T1 T0)
                  = Some (fst signal_delivered, snd signal_delivered)) by reflexivity.
  split; [exact Hrun|]. split; [exact Ht|]. split; [reflexivity|]. split; [exact Hstep|].
  exact (proj1 (Signal_frame 0 2 0 _ _ (Deliver T1 T0) _ _ T1 _ Hrun Ht eq_refl Hstep)).
Defined.

Lemma crashed_set t th ths :
  crashed ths = false -> panicked th = false -> crashed (<[t := th]> ths) = false.
Proof. apply existsb_insert_false. Qed.

Lemma parked_set c t th ths :
  parked c ths = false -> receiving c th = false -> parked c (<[t := th]> ths) = false.
Proof. apply existsb_insert_false. Qed.

Lemma parked_no_receiver c ths r th :
  parked c ths = false -> ths !! r = Some th -> receiving c th = false.
Proof.
  revert r. induction ths as [|y ths IH]; intros r Hp Hr; [discriminate|].
  simpl in Hp. apply orb_false_iff in Hp as [Hy Hp].
  destruct r; simpl in Hr.
  - now injection Hr as <-.
  - eauto.
Qed.

Lemma step_call_eq s t c :
  crashed (pool s) = false -> pool s !! t = Some Idle ->
  step s (Call t c) = Some ([(t, ACall c)], set_thread t (Active c (call_prog c)) s).
Proof. intros Hc Ht. unfold step, step_call. now rewrite Hc, Ht. Qed.

Lemma step_sched_eq s t c p a w p' :
  crashed (pool s) = false -> pool s !! t = Some (Active c p) ->
  perform t (shared s) (asleep (pool s) (queued s)) p = Some (a, w) ->
  react p a = Some p' ->
  step s (Sched t)
    = Some ([(t, a)], mkState w (<[t := Active c p']> (pool s)) (after_act a t (queued s))).
Proof. intros Hc Ht Hp Hr. unfold step, step_sched. now rewrite Hc, Ht, Hp, Hr. Qed.

Lemma step_return_eq s t c r :
  crashed (pool s) = false -> pool s !! t = Some (Active c (Ret r)) ->
  step s (Return t) = Some ([(t, AReturn r)], set_thread t Idle s).
Proof. intros Hc Ht. unfold step, step_return. now rewrite Hc, Ht. Qed.

(** * The discipline keeps [Interrupt] safe *)

Lemma run_ok_run s0 h s : run_ok s0 h s -> run s0 h s.
Proof. induction 1; econstructor; eauto. Qed.

Lemma existsb_lookup_false {A} (f : A -> bool) (l : list A) i x :
  existsb f l = false -> l !! i = Some x -> f x = false.
Proof.
  revert i. induction l as [|y l IH]; intros i Hl Hi; [discriminate|].
  simpl in Hl. apply orb_false_iff in Hl as [Hy Hl].
  destruct i; simpl in Hi; [now injection Hi as <-|eauto].
Qed.

Lemma existsb_lookup_true {A} (f : A -> bool) (l : list A) :
  existsb f l = true -> exists i x, l !! i = Some x /\ f x = true.
Proof.
  induction l as [|y l IH]; [discriminate|]. simpl. intros H.
  apply orb_true_iff in H as [H|H].
  - exists 0%nat, y. auto.
  - destruct (IH H) as (i & x & Hi & Hx). exists (S i), x. auto.
Qed.

Lemma existsb_insert_back {A} (f : A -> bool) (l : list A) i x y :
  existsb f (<[i := x]> l) = false -> l !! i = Some y -> f y = false ->
  existsb f l = false.
Proof.
  revert i. induction l as [|z l IH]; intros i Hl Hi Hy; [reflexivity|].
  destruct i; simpl in *.
  - injection Hi as ->. apply orb_false_iff in Hl as [_ Hl]. now rewrite Hy, Hl.
  - apply orb_false_iff in Hl as [Hz Hl]. rewrite Hz. eauto.
Qed.

Lemma window_holds th : window th = true -> holds_lock th = true.
Proof. destruct th as [|[] []]; simpl; congruence. Qed.

(** Whoever holds the lock outside of the window sees the stored channel
    open. *)
Lemma holder_sees_open s t th :
  safe s -> pool s !! t = Some th -> holds_lock th = true -> window th = false ->
  chans (shared s) !! signal (cond (shared s)) = Some false.
Proof.
  intros Hs Ht Hh Hw. apply (safe_open s Hs).
  destruct (existsb window (pool s)) eqn:He; [|reflexivity].
  apply existsb_lookup_true in He as (u & thu & Hu & Hwu).
  pose proof (safe_lock s Hs _ _ Hu (window_holds _ Hwu)) as H1.
  pose proof (safe_lock s Hs _ _ Ht Hh) as H2.
  assert (u = t) by congruence. subst u. congruence.
Qed.

(** One goroutine moves from [th] to [th'] and the shared state becomes
    [w']. *)
Lemma safe_update s t th th' w' q :
  safe s ->
  pool s !! t = Some th ->
  (holds_lock th' = true -> holder w' = Some t) ->
  (holder w' = holder (shared s) \/ holds_lock th = true \/ holder (shared s) = None) ->
  ((chans w' = chans (shared s) /\ signal (cond w') = signal (cond (shared s)))
   \/ holds_lock th = true) ->
  (forall ch k, th' = Active CInterrupt (CloseChan ch k) ->
     ch = signal (cond w') /\ chans w' !! ch = Some false) ->
  (forall ch k, th' = Active CInterrupt (SetSignal ch k) -> chans w' !! ch = Some false) ->
  (window th' = false ->
     (window th = false /\ chans w' = chans (shared s)
      /\ signal (cond w') = signal (cond (shared s)))
     \/ chans w' !! signal (cond w') = Some false) ->
  (forall m, th' <> Active CInterrupt (Panic m)) ->
  safe (mkState w' (<[t := th']> (pool s)) q).
Proof.
  intros Hs Ht P1 P2 P3 P4 P5 P6 P7.
  assert (Hlt : (t < length (pool s))%nat) by (eapply lookup_lt_Some; eauto).
  assert (Hother : forall u thu, u <> t -> pool s !! u = Some thu ->
            holds_lock thu = true ->
            holder w' = Some u /\ chans w' = chans (shared s)
            /\ signal (cond w') = signal (cond (shared s))).
  { intros u thu Hne Hu Hh. pose proof (safe_lock s Hs _ _ Hu Hh) as Hl.
    assert (Hnot : holds_lock th = false).
    { destruct (holds_lock th) eqn:E; [|reflexivity].
      pose proof (safe_lock s Hs _ _ Ht E). congruence. }
    destruct P2 as [P2|[P2|P2]]; try congruence.
    destruct P3 as [[P3 P3']|P3]; try congruence.
    split; [congruence|]. auto. }
  constructor; cbn [shared pool].
  - intros u thu Hu Hh. destruct (decide (u = t)) as [->|Hne].
    + rewrite list_lookup_insert_eq in Hu by assumption. injection Hu as <-. auto.
    + rewrite list_lookup_insert_ne in Hu by congruence.
      now destruct (Hother _ _ Hne Hu Hh).
  - intros u ch k Hu. destruct (decide (u = t)) as [->|Hne].
    + rewrite list_lookup_insert_eq in Hu by assumption. injection Hu as Hu. eauto.
    + rewrite list_lookup_insert_ne in Hu by congruence.
      destruct (Hother _ _ Hne Hu eq_refl) as (_ & Hc & Hsg).
      rewrite Hc, Hsg. eapply safe_close; eauto.
  - intros u ch k Hu. destruct (decide (u = t)) as [->|Hne].
    + rewrite list_lookup_insert_eq in Hu by assumption. injection Hu as Hu. eauto.
    + rewrite list_lookup_insert_ne in Hu by congruence.
      destruct (Hother _ _ Hne Hu eq_refl) as (_ & Hc & Hsg).
      rewrite Hc. eapply safe_store; eauto.
  - intros He.
    assert (Hw' : window th' = false).
    { eapply existsb_lookup_false; [exact He|]. now apply list_lookup_insert_eq. }
    destruct (P6 Hw') as [(Hw & Hc & Hsg)|Hdone]; [|assumption].
    rewrite Hc, Hsg. apply (safe_open s Hs).
    eapply existsb_insert_back; eauto.
  - intros u m Hu. destruct (decide (u = t)) as [->|Hne].
    + rewrite list_lookup_insert_eq in Hu by assumption. injection Hu as Hu.
      now apply (P7 m).
    + rewrite list_lookup_insert_ne in Hu by congruence.
      now apply (safe_calm s Hs u m).
Qed.

Lemma run_wellformed s0 h s : all_idle s0 -> run s0 h s -> wellformed s.
Proof.
  intros H0 Hrun t c p Ht. exists (since_call t h). eapply run_shape; eauto.
Qed.

Ltac perform_inv Hp :=
  simpl in Hp;
  repeat (match type of Hp with
          | context [match ?x with _ => _ end] => destruct x eqn:?
          | context [if ?x then _ else _] => destruct x eqn:?
          end; try discriminate Hp);
  try (injection Hp as <- <-).

Ltac react_inv Hr :=
  simpl in Hr;
  repeat (match type of Hr with
          | context [decide ?P] => destruct (decide P); try congruence
          end);
  try discriminate Hr;
  try (injection Hr as <-).

Ltac safe_premises :=
  simpl;
  repeat (match goal with
          | |- context [if ?v =? ?n then _ else _] => destruct (Z.eqb_spec v n)
          end; simpl);
  try solve
    [ intuition (try congruence; try discriminate; auto)
    | intros; discriminate
    | intros; congruence
    | intros ? ? E; inversion E; subst; now apply list_lookup_middle ].

Lemma safe_sched s t c p a w p' ths q :
  wellformed s -> safe s ->
  pool s !! t = Some (Active c p) ->
  perform t (shared s) ths p = Some (a, w) ->
  react p a = Some p' ->
  safe (mkState w (<[t := Active c p']> (pool s)) q).
Proof.
  intros Hwf Hs Ht Hp Hr.
  destruct (Hwf _ _ _ Ht) as (acts & Hsh & Haf).
  destruct c; by_shape Hsh Haf; inversion Haf; subst; clear Haf Hsh.
  all: pose proof (safe_lock s Hs t _ Ht) as Hlock; simpl in Hlock.
  all: try pose proof (safe_close s Hs t _ _ Ht) as Hclose.
  all: try pose proof (safe_store s Hs t _ _ Ht) as Hstore.
  all: try pose proof (holder_sees_open s t _ Hs Ht eq_refl eq_refl) as Hopen.
  all: perform_inv Hp; react_inv Hr.
  all: eapply safe_update; [exact Hs|exact Ht|..]; safe_premises.
Qed.


Lemma safe_step s l evs s' :
  wellformed s -> safe s -> allowed s l -> step s l = Some (evs, s') -> safe s'.
Proof.
  intros Hwf Hs Hal Hstep. apply step_inv in Hstep as [_ Hstep].
  destruct Hstep as [t c Ht|t c p a w p' Ht Hp Hr
    |sd rc cs c v ks cr pr ps' pr' Hsd Hrc Hne Hrv Hq Hch Hrs Hrr|t c ch tm k p' Ht Htm Hr
    |t c r Ht|d Hd|tp thp Htp Hqp Hmw].
  - unfold set_thread. eapply safe_update; [exact Hs|exact Ht|..];
      destruct c; simpl in Hal; safe_premises.
  - eapply safe_sched; eauto.
  - assert (H1 : safe (mkState (shared s) (<[sd := Active cs ps']> (pool s)) (queued s))).
    { destruct (Hwf _ _ _ Hsd) as (acts & Hsh & Haf).
      destruct cs; by_shape Hsh Haf; inversion Haf; subst; clear Haf Hsh.
      react_inv Hrs.
      eapply safe_update; [exact Hs|exact Hsd|..]; safe_premises. }
    assert (Hrc' : pool (mkState (shared s) (<[sd := Active cs ps']> (pool s)) (queued s))
                     !! rc = Some (Active cr pr)).
    { cbn [pool]. now rewrite list_lookup_insert_ne. }
    destruct (Hwf _ _ _ Hrc) as (acts & Hsh & Haf).
    destruct cr; by_shape Hsh Haf; inversion Haf; subst; clear Haf Hsh;
      simpl in Hrv; try discriminate Hrv.
    all: react_inv Hrr.
    all: match goal with
         | |- safe (mkState ?w (<[?i := ?th]> ?l) ?q) =>
             change (safe (mkState (shared (mkState w l (queued s)))
                                   (<[i := th]> (pool (mkState w l (queued s)))) q))
         end.
    all: eapply safe_update; [exact H1|exact Hrc'|..]; safe_premises.
  - destruct (Hwf _ _ _ Ht) as (acts & Hsh & Haf).
    destruct c; by_shape Hsh Haf; inversion Haf; subst; clear Haf Hsh.
    react_inv Hr.
    unfold set_thread. eapply safe_update; [exact Hs|exact Ht|..]; safe_premises.
  - unfold set_thread. eapply safe_update; [exact Hs|exact Ht|..];
      destruct c; safe_premises.
  - destruct Hs as [H1 H2 H3 H4 H5]. constructor; cbn [shared pool set_clock]; auto.
  - destruct Hs as [H1 H2 H3 H4 H5]. constructor; cbn [shared pool]; auto.
Qed.

Lemma crashed_idle n : crashed (replicate n Idle) = false.
Proof. induction n; simpl; auto. Qed.

Lemma window_idle n : existsb window (replicate n Idle) = false.
Proof. induction n; simpl; auto. Qed.

Lemma init_safe l n now : safe (init l n now).
Proof.
  constructor; simpl.
  - intros t th H. apply lookup_replicate in H as [-> _]. discriminate.
  - intros t ch k H. apply lookup_replicate in H as [? _]. discriminate.
  - intros t ch k H. apply lookup_replicate in H as [? _]. discriminate.
  - reflexivity.
  - intros t m H. apply lookup_replicate in H as [? _]. discriminate.
Qed.

Lemma run_ok_safe l n now h s : run_ok (init l n now) h s -> safe s.
Proof.
  induction 1 as [|h s lab evs s' Hrun IH Hal Hstep].
  - apply init_safe.
  - eapply safe_step; eauto.
    eapply run_wellformed; [apply init_all_idle|]. eapply run_ok_run; eauto.
Qed.

Lemma exec_app s h ls1 ls2 :
  exec s h (ls1 ++ ls2) =
  match exec s h ls1 with
  | Some (h', s') => exec s' h' ls2
  | None => None
  end.
Proof.
  revert s h. induction ls1 as [|l ls1 IH]; intros s h; simpl; [reflexivity|].
  destruct (step s l) as [[evs s']|]; [apply IH|reflexivity].
Qed.

Lemma replicate_snoc {A} k (x : A) : replicate k x ++ [x] = x :: replicate k x.
Proof. induction k; simpl; congruence. Qed.

Lemma solo_sched w ths q t c p a w' p' :
  (t < length ths)%nat -> crashed ths = false -> panicked (Active c p) = false ->
  perform t w (asleep (<[t := Active c p]> ths) q) p = Some (a, w') ->
  react p a = Some p' ->
  step (mkState w (<[t := Active c p]> ths) q) (Sched t)
    = Some ([(t, a)], mkState w' (<[t := Active c p']> ths) (after_act a t q)).
Proof.
  intros Hlt Hc Hp Hperf Hr.
  rewrite (step_sched_eq _ t c p a w' p'); cbn [pool shared]; auto.
  - now rewrite list_insert_insert_eq.
  - now apply crashed_set.
  - now apply list_lookup_insert_eq.
Qed.

Ltac world_norm :=
  cbn [exec perform chans set_holder set_chans set_signal set_hasWaiters
       cond signal holder shared pool queued after_act wakes hasWaiters L clock].

Lemma interrupt_once_runs l n now k t h :
  (t < n)%nat ->
  exists evs,
    exec (after_interrupts l n now k) h (interrupt_once t)
      = Some (evs ++ h, after_interrupts l n now (S k)).
Proof.
  intros Hlt.
  exists [(t, AReturn RUnit); (t, AUnlock); (t, ASetSignal (S k)); (t, AMake (S k));
          (t, AClose k); (t, AGetSignal k); (t, ALock); (t, ACall CInterrupt)].
  assert (Hclose : <[k := true]> (replicate k true ++ [false]) = replicate (S k) true).
  { rewrite insert_app_r_alt by (rewrite length_replicate; lia).
    rewrite length_replicate, Nat.sub_diag. simpl. apply replicate_snoc. }
  assert (Hlen : length (replicate n Idle) = n) by apply length_replicate.
  assert (Hidle : replicate n Idle !! t = Some Idle) by now apply lookup_replicate.
  pose proof (crashed_idle n) as Hc0.
  assert (Hk : (replicate k true ++ [false]) !! k = Some false).
  { apply list_lookup_middle. now rewrite length_replicate. }
  unfold interrupt_once, after_interrupts. cbn [exec].
  rewrite step_call_eq by assumption.
  unfold set_thread. cbn [exec shared pool queued call_prog].
  erewrite solo_sched; [| lia | assumption | reflexivity | reflexivity | reflexivity].
  world_norm.
  erewrite solo_sched; [| lia | assumption | reflexivity | reflexivity | reflexivity].
  world_norm.
  erewrite solo_sched; [| lia | assumption | reflexivity
                        | world_norm; unfold chan; rewrite Hk; reflexivity
                        | cbn; case_decide; [reflexivity|congruence] ].
  world_norm.
  erewrite solo_sched; [| lia | assumption | reflexivity | reflexivity | reflexivity].
  world_norm.
  erewrite solo_sched; [| lia | assumption | reflexivity | reflexivity
                        | cbn; case_decide; [reflexivity|congruence] ].
  world_norm.
  erewrite solo_sched; [| lia | assumption | reflexivity | reflexivity | reflexivity].
  world_norm.
  erewrite step_return_eq;
    [| cbn [pool]; now apply crashed_set
     | cbn [pool]; apply list_lookup_insert_eq; lia ].
  unfold set_thread, set_holder, set_signal, set_chans. cbn [pool shared queued cond chans L
    hasWaiters clock holder signal].
  unfold chan in *. rewrite Hclose, list_insert_insert_eq, list_insert_id by assumption.
  rewrite length_replicate. reflexivity.
Qed.

Lemma exec_run_ok s0 h s ls h' s' :
  run_ok s0 h s -> disciplined s ls -> exec s h ls = Some (h', s') -> run_ok s0 h' s'.
Proof.
  revert h s. induction ls as [|l ls IH]; intros h s Hrun Hd He; simpl in He.
  - now inversion He; subst.
  - destruct Hd as [Hal Hd].
    destruct (step s l) as [[evs s1]|] eqn:Hs; [|discriminate].
    eapply IH; [|exact Hd|exact He]. econstructor; eauto.
Qed.

Lemma interrupts_run l n now t k : forall j h,
  (t < n)%nat ->
  exists h',
    exec (after_interrupts l n now j) h (repeated k (interrupt_once t))
      = Some (h', after_interrupts l n now (k + j)).
Proof.
  induction k as [|k IH]; intros j h Hlt.
  - exists h. reflexivity.
  - cbn [repeated]. rewrite exec_app.
    destruct (interrupt_once_runs l n now j t h Hlt) as (evs & ->).
    destruct (IH (S j) (evs ++ h) Hlt) as (h' & ->).
    exists h'. do 3 f_equal. lia.
Qed.

Lemma idle_no_window ths :
  (forall t th, ths !! t = Some th -> th = Idle) -> existsb window ths = false.
Proof.
  intros H. destruct (existsb window ths) eqn:E; [|reflexivity].
  apply existsb_lookup_true in E as (i & x & Hi & Hx).
  apply H in Hi. subst x. discriminate.
Qed.

(** C9.  As long as the callers take the lock before they wait, the stored
    channel is open whenever no [Interrupt] is between its [close] and its
    store, in particular whenever no call is in progress; the [close] of
    [Interrupt] is applied to the stored channel while it is open, so it
    succeeds; the channel [Interrupt] stores is open; no [Interrupt]
    panics.  And any number of calls of [Interrupt] in a row, on a fresh
    condition, run to completion and leave an open stored channel. *)
Theorem Interrupt_never_closes_twice l n now h s :
  run_ok (init l n now) h s ->
  (existsb window (pool s) = false ->
     chans (shared s) !! signal (cond (shared s)) = Some false) /\
  (all_idle s -> chans (shared s) !! signal (cond (shared s)) = Some false) /\
  (forall t ch k, pool s !! t = Some (Active CInterrupt (CloseChan ch k)) ->
     ch = signal (cond (shared s)) /\ chans (shared s) !! ch = Some false /\
     forall ths, perform t (shared s) ths (CloseChan ch k)
       = Some (AClose ch, set_chans (<[ch := true]> (chans (shared s))) (shared s))) /\
  (forall t ch k, pool s !! t = Some (Active CInterrupt (SetSignal ch k)) ->
     chans (shared s) !! ch = Some false) /\
  (forall t m, pool s !! t <> Some (Active CInterrupt (Panic m))) /\
  (forall k t, (t < n)%nat ->
     exists h',
       exec (init l n now) [] (repeated k (interrupt_once t))
         = Some (h', after_interrupts l n now k) /\
       chans (shared (after_interrupts l n now k))
         !! signal (cond (shared (after_interrupts l n now k))) = Some false).
Proof.
  intros Hrun. pose proof (run_ok_safe _ _ _ _ _ Hrun) as Hs.
  split_and!.
  - apply (safe_open s Hs).
  - intros Hidle. apply (safe_open s Hs). now apply idle_no_window.
  - intros t ch k Ht. destruct (safe_close s Hs t ch k Ht) as [H1 H2].
    split_and!; try assumption. intros ths. cbn [perform]. now rewrite H2.
  - apply (safe_store s Hs).
  - apply (safe_calm s Hs).
  - intros k t Hlt.
    destruct (interrupts_run l n now t k 0%nat [] Hlt) as (h' & He).
    exists h'. split.
    + rewrite Nat.add_0_r in He. exact He.
    + cbn. apply list_lookup_middle. now rewrite length_replicate.
Qed.

Lemma Interrupt_never_closes_twice_witness :
  run_ok (init 0 2 0) (fst (outcome (init 0 2 0) interrupted_wait))
         (snd (outcome (init 0 2 0) interrupted_wait)) /\
  chans (shared (snd (outcome (init 0 2 0) interrupted_wait)))
    !! signal (cond (shared (snd (outcome (init 0 2 0) interrupted_wait)))) = Some false.
Proof.
  assert (Hrun : run_ok (init 0 2 0) (fst (outcome (init 0 2 0) interrupted_wait))
                        (snd (outcome (init 0 2 0) interrupted_wait))).
  { apply (exec_run_ok (init 0 2 0) [] (init 0 2 0) interrupted_wait).
    - constructor.
    - vm_compute. tauto.
    - vm_compute. reflexivity. }
  split; [exact Hrun|].
  apply (proj1 (Interrupt_never_closes_twice 0 2 0 _ _ Hrun)).
  vm_compute. reflexivity.
Defined.

(** * Closed channels *)

Ltac perform_cases Hp :=
  cbn [perform] in Hp;
  repeat (match type of Hp with
          | match ?x with _ => _ end = _ => destruct x eqn:?
          | (if ?x then _ else _) = _ => destruct x eqn:?
          end; try discriminate Hp);
  try discriminate Hp.

Lemma perform_keeps_closed {R} t w ths (p : prog R) a w' ch :
  perform t w ths p = Some (a, w') ->
  chans w !! ch = Some true -> chans w' !! ch = Some true.
Proof.
  intros Hp Hch. destruct p; perform_cases Hp;
    injection Hp as <- <-; simpl; try assumption.
  - apply lookup_app_l_Some. assumption.
  - destruct (decide (c = ch)) as [->|Hne].
    + apply list_lookup_insert_eq. eapply lookup_lt_Some; eauto.
    + now rewrite list_lookup_insert_ne.
Qed.

Lemma perform_close {R} t w ths (p : prog R) ch w' :
  perform t w ths p = Some (AClose ch, w') -> chans w' !! ch = Some true.
Proof.
  intros Hp. destruct p; perform_cases Hp;
    inversion Hp; subst; simpl.
  apply list_lookup_insert_eq. eapply lookup_lt_Some; eauto.
Qed.

Lemma perform_no_post {R} t w ths (p : prog R) sd ch x w' :
  perform t w ths p <> Some (ARecvFrom sd ch x, w').
Proof.
  intros Hp. destruct p; perform_cases Hp.
Qed.

(** A channel that has been closed stays closed. *)
Lemma closed_stays s0 h s ti ch :
  run s0 h s -> In (ti, AClose ch) h -> chans (shared s) !! ch = Some true.
Proof.
  intros Hrun. induction Hrun as [|h s l evs s' Hrun IH Hstep]; [intros []|].
  intros Hin. apply in_app_or in Hin.
  apply step_inv in Hstep as [_ Hstep].
  destruct Hstep as [t c Ht|t c p a w p' Ht Hp Hr
    |sd rc cs c v ks cr pr ps' pr' Hsd Hrc Hne Hrv Hq Hch Hrs Hrr|t c c' tm k p' Ht Htm Hr
    |t c r Ht|d Hd|tp thp Htp Hqp Hmw]; cbn [shared set_thread set_clock chans].
  - destruct Hin as [[Hin|[]]|Hin]; [discriminate|auto].
  - destruct Hin as [[Hin|[]]|Hin].
    + injection Hin as -> ->. eapply perform_close; eauto.
    + eapply perform_keeps_closed; eauto.
  - destruct Hin as [[Hin|[Hin|[]]]|Hin]; try discriminate; auto.
  - destruct Hin as [[Hin|[]]|Hin]; [discriminate|auto].
  - destruct Hin as [[Hin|[]]|Hin]; [discriminate|auto].
  - destruct Hin as [[]|Hin]. auto.
  - destruct Hin as [[]|Hin]. auto.
Qed.

Lemma run_posts_open s0 h s : run s0 h s -> posts_open h.
Proof.
  intros Hrun. induction Hrun as [|h s l evs s' Hrun IH Hstep]; [exact I|].
  apply step_inv in Hstep as [_ Hstep].
  destruct Hstep as [t c Ht|t c p a w p' Ht Hp Hr
    |sd rc cs c v ks cr pr ps' pr' Hsd Hrc Hne Hrv Hq Hch Hrs Hrr|t c c' tm k p' Ht Htm Hr
    |t c r Ht|d Hd|tp thp Htp Hqp Hmw]; simpl; auto.
  - split; [assumption|]. destruct a; auto.
    exfalso. eapply perform_no_post; eauto.
  - split; [auto|]. intros ti [Hin|Hin]; [discriminate|].
    pose proof (closed_stays _ _ _ _ _ Hrun Hin). congruence.
Qed.

Lemma posts_open_after_close h2 ti ch h1 u sd x :
  posts_open (h2 ++ (ti, AClose ch) :: h1) -> ~ In (u, ARecvFrom sd ch x) h2.
Proof.
  induction h2 as [|[u' a] h2 IH]; intros Hp Hin; [destruct Hin|].
  simpl in Hp. destruct Hp as [Hp Ha]. destruct Hin as [Hin|Hin]; [|exact (IH Hp Hin)].
  injection Hin as -> ->. apply (Ha ti). apply in_or_app. right. now left.
Qed.

Lemma mine_in t a h : In a (mine t h) -> In (t, a) h.
Proof.
  induction h as [|[u b] h IH]; simpl; [auto|].
  destruct (decide (u = t)) as [->|Hne]; simpl; intuition congruence.
Qed.

Lemma since_call_app t h2 h1 :
  no_call t h2 -> since_call t (h2 ++ h1) = mine t h2 ++ since_call t h1.
Proof.
  induction h2 as [|[u a] h2 IH]; intros Hno; [reflexivity|].
  assert (Hno' : no_call t h2) by (intros c Hin; apply (Hno c); now right).
  simpl. destruct (decide (u = t)) as [->|Hne]; [|auto].
  destruct a; try (simpl; f_equal; auto; fail).
  exfalso. apply (Hno c). now left.
Qed.

Lemma since_call_close t h2 ti ch h1 :
  no_call t h2 ->
  since_call t (h2 ++ (ti, AClose ch) :: h1)
    = mine t (h2 ++ [(ti, AClose ch)]) ++ since_call t h1.
Proof.
  intros Hno. change (h2 ++ (ti, AClose ch) :: h1) with (h2 ++ [(ti, AClose ch)] ++ h1).
  rewrite app_assoc. apply since_call_app.
  intros c Hin. apply in_app_or in Hin as [Hin|[Hin|[]]]; [now apply (Hno c)|discriminate].
Qed.

(** After the close of [ch] nobody is handed a value on [ch]. *)
Lemma no_post_after_close s0 h2 ti ch h1 s t sd x :
  run s0 (h2 ++ (ti, AClose ch) :: h1) s ->
  ~ In (ARecvFrom sd ch x) (mine t (h2 ++ [(ti, AClose ch)])).
Proof.
  intros Hrun Hin. apply mine_in in Hin.
  apply in_app_or in Hin as [Hin|[Hin|[]]]; [|discriminate].
  eapply posts_open_after_close; [|exact Hin]. eapply run_posts_open; eauto.
Qed.

Lemma last_wake_none a acts : last_wake acts = None -> In a acts -> act_wake a = None.
Proof.
  induction acts as [|b acts IH]; intros Hl Hin; [destruct Hin|].
  simpl in Hl. destruct (act_wake b) eqn:Hb; [discriminate|].
  destruct Hin as [->|Hin]; auto.
Qed.

(** C4 as stated fails: in [timer_beats_close] the call of
    [WaitWithTimeout] by [T0] captured channel 0, [Interrupt] closed
    channel 0, and the call returned [(0, false)]. *)
Lemma close_wakes_every_captor_fails : ~ close_wakes_every_captor.
Proof.
  intros H.
  assert (Hrun : run_ok (init 0 2 0) (fst (outcome (init 0 2 0) timer_beats_close))
                        (snd (outcome (init 0 2 0) timer_beats_close))).
  { apply (exec_run_ok (init 0 2 0) [] (init 0 2 0) timer_beats_close).
    - constructor.
    - vm_compute. tauto.
    - reflexivity. }
  assert (Ht : pool (snd (outcome (init 0 2 0) timer_beats_close)) !! T0
               = Some (Active (CWaitWithTimeout 5) (Ret (RDurBool 0 false))))
    by reflexivity.
  specialize (H 0%nat 2%nat 0 _ _ T0 _ _ T1 0%nat Hrun Ht eq_refl).
  assert (H1 : In (AGetSignal 0%nat)
                 (since_call T0 (fst (outcome (init 0 2 0) timer_beats_close)))).
  { vm_compute. tauto. }
  assert (H2 : In (T1, AClose 0%nat) (fst (outcome (init 0 2 0) timer_beats_close))).
  { vm_compute. tauto. }
  specialize (H H1 H2). discriminate H.
Qed.

(** * The counter counts the waits *)

Lemma waiting_nonneg ths : 0 <= waiting ths.
Proof. induction ths as [|th ths IH]; simpl; [lia|]. destruct (counted th); simpl; lia. Qed.

Lemma waiting_insert ths t th th' :
  ths !! t = Some th ->
  waiting (<[t := th']> ths) = waiting ths - Z.b2z (counted th) + Z.b2z (counted th').
Proof.
  revert t. induction ths as [|x ths IH]; intros t Ht; [discriminate|].
  destruct t; simpl in *.
  - injection Ht as ->. lia.
  - rewrite (IH _ Ht). lia.
Qed.

Lemma waiting_lookup ths t th :
  ths !! t = Some th -> Z.b2z (counted th) <= waiting ths.
Proof.
  revert t. induction ths as [|x ths IH]; intros t Ht; [discriminate|].
  destruct t; simpl in *.
  - injection Ht as ->. pose proof (waiting_nonneg ths). lia.
  - specialize (IH _ Ht). destruct (counted x); simpl; lia.
Qed.

Lemma wrap_small z : 0 <= z < U64.modulus -> U64.wrap z = z.
Proof. intros H. unfold U64.wrap. now apply Z.mod_small. Qed.

Lemma modulus_value : U64.modulus = 18446744073709551616.
Proof. reflexivity. Qed.

(** One goroutine moves from [th] to [th'], the counter becomes [v']. *)
Lemma counting_update s t th th' w' q :
  counting s -> crashed (pool s) = false ->
  pool s !! t = Some th ->
  (panicked th' = false ->
   hasWaiters (cond w')
     = U64.wrap (hasWaiters (cond (shared s)) + Z.b2z (counted th') - Z.b2z (counted th))) ->
  (panicked th' = false -> counted th' = true -> counted th = false ->
   hasWaiters (cond w') <> 0) ->
  counting (mkState w' (<[t := th']> (pool s)) q).
Proof.
  intros Hc Hnc Ht P1 P2 Hnc'. cbn [pool shared] in *.
  destruct (Hc Hnc) as [Hw Hlt].
  assert (Hp : panicked th' = false).
  { eapply existsb_lookup_false; [exact Hnc'|].
    apply list_lookup_insert_eq. eapply lookup_lt_Some; eauto. }
  specialize (P1 Hp). specialize (P2 Hp).
  rewrite (waiting_insert _ _ _ _ Ht).
  pose proof (waiting_lookup _ _ _ Ht) as Hge.
  pose proof (waiting_nonneg (pool s)) as H0.
  rewrite modulus_value in *. rewrite Hw in P1.
  destruct (counted th) eqn:E1, (counted th') eqn:E2; simpl in *.
  - rewrite wrap_small in P1 by (rewrite modulus_value; lia). lia.
  - rewrite wrap_small in P1 by (rewrite modulus_value; lia). lia.
  - specialize (P2 eq_refl eq_refl).
    destruct (Z.eq_dec (waiting (pool s) + 1) 18446744073709551616) as [Heq|Hne].
    + exfalso. apply P2. rewrite P1.
      replace (waiting (pool s) + 1 - 0) with 18446744073709551616 by lia. reflexivity.
    + rewrite wrap_small in P1 by (rewrite modulus_value; lia). lia.
  - rewrite wrap_small in P1 by (rewrite modulus_value; lia). lia.
Qed.

Lemma paired_exits_update s t th th' w' q :
  paired_exits s -> pool s !! t = Some th ->
  (forall c, is_wait c = true -> th' <> Active c (Panic remove_twice)) ->
  paired_exits (mkState w' (<[t := th']> (pool s)) q).
Proof.
  intros Hp Ht Hth u c Hc. cbn [pool]. destruct (decide (u = t)) as [->|Hne].
  - rewrite list_lookup_insert_eq by (eapply lookup_lt_Some; eauto).
    intros H. injection H as H. now apply (Hth c).
  - rewrite list_lookup_insert_ne by congruence. now apply Hp.
Qed.

Lemma add_not_zero v : U64.add v (U64.not 0) = U64.wrap (v + 0 - 1).
Proof.
  unfold U64.add, U64.wrap. rewrite not_zero, max_value, modulus_value.
  replace (v + 18446744073709551615) with (v + 0 - 1 + 1 * 18446744073709551616) by lia.
  now rewrite Z.mod_add.
Qed.

Lemma not_zero_not_one : bool_decide (U64.not 0 = 1) = false.
Proof. reflexivity. Qed.

Ltac count_facts s Hc Hnc Ht :=
  let Hnn := fresh "Hnn" in
  let Hw := fresh "Hw" in
  let Hlt := fresh "Hlt" in
  let Hge := fresh "Hge" in
  destruct (Hc Hnc) as [Hw Hlt];
  pose proof (waiting_lookup _ _ _ Ht) as Hge;
  pose proof (waiting_nonneg (pool s)) as Hnn;
  rewrite modulus_value in Hlt;
  cbn [counted is_wait andb] in Hge;
  try rewrite not_zero_not_one in Hge;
  cbn [negb Z.b2z] in Hge.

Ltac count_premises :=
  simpl;
  try rewrite not_zero_not_one;
  repeat (match goal with
          | |- context [if ?v =? ?n then _ else _] => destruct (Z.eqb_spec v n)
          end; simpl);
  try solve
    [ intros; discriminate
    | intros; congruence
    | intros; unfold U64.add; f_equal; lia
    | intros; rewrite wrap_small by (rewrite modulus_value; lia); lia
    | intros; apply add_not_zero ].

Ltac exits_premise :=
  let E := fresh "E" in
  intros ? ? E; simpl in E;
  repeat (match type of E with
          | context [if ?v =? ?n then _ else _] => destruct (Z.eqb_spec v n)
          end; simpl in E);
  try discriminate E;
  try (inversion E; fail);
  try (exfalso;
       match goal with
       | H : U64.add _ (U64.not 0) = U64.MaxUint64 |- _ =>
           rewrite add_minus_one in H by (rewrite max_value; lia);
           rewrite max_value in H; lia
       end).

Lemma counting_sched s t c p a w p' ths q :
  wellformed s -> crashed (pool s) = false -> counting s -> paired_exits s ->
  pool s !! t = Some (Active c p) ->
  perform t (shared s) ths p = Some (a, w) ->
  react p a = Some p' ->
  counting (mkState w (<[t := Active c p']> (pool s)) q) /\
  paired_exits (mkState w (<[t := Active c p']> (pool s)) q).
Proof.
  intros Hwf Hnc Hc Hpe Ht Hp Hr.
  destruct (Hwf _ _ _ Ht) as (acts & Hsh & Haf).
  destruct c; by_shape Hsh Haf; inversion Haf; subst; clear Haf Hsh.
  all: count_facts s Hc Hnc Ht.
  all: perform_inv Hp; react_inv Hr.
  all: split; [eapply counting_update; [exact Hc|exact Hnc|exact Ht|..]; count_premises
              |eapply paired_exits_update; [exact Hpe|exact Ht|exits_premise]].
Qed.

Lemma counting_step s l evs s' :
  wellformed s -> counting s -> paired_exits s ->
  step s l = Some (evs, s') ->
  counting s' /\ paired_exits s'.
Proof.
  intros Hwf Hc Hpe Hstep. apply step_inv in Hstep as [Hnc Hstep].
  destruct Hstep as [t c Ht|t c p a w p' Ht Hp Hr
    |sd rc cs c v ks cr pr ps' pr' Hsd Hrc Hne Hrv Hq Hch Hrs Hrr|t c ch tm k p' Ht Htm Hr
    |t c r Ht|d Hd|tp thp Htp Hqp Hmw].
  - count_facts s Hc Hnc Ht. unfold set_thread.
    split; [eapply counting_update; [exact Hc|exact Hnc|exact Ht|..]; destruct c; count_premises
           |eapply paired_exits_update; [exact Hpe|exact Ht|destruct c; exits_premise]].
  - eapply counting_sched; eauto.
  - set (s1 := mkState (shared s) (<[sd := Active cs ps']> (pool s)) (queued s)).
    assert (H1 : counting s1 /\ paired_exits s1 /\ crashed (pool s1) = false).
    { destruct (Hwf _ _ _ Hsd) as (acts & Hsh & Haf). unfold s1.
      destruct cs; by_shape Hsh Haf; inversion Haf; subst; clear Haf Hsh.
      count_facts s Hc Hnc Hsd. react_inv Hrs.
      split_and!; [eapply counting_update; [exact Hc|exact Hnc|exact Hsd|..]; count_premises
             |eapply paired_exits_update; [exact Hpe|exact Hsd|exits_premise]
             |cbn [pool]; now apply crashed_set]. }
    destruct H1 as (Hc1 & Hpe1 & Hnc1).
    assert (Hrc' : pool s1 !! rc = Some (Active cr pr)).
    { unfold s1. cbn [pool]. now rewrite list_lookup_insert_ne. }
    change (counting (mkState (shared s1) (<[rc := Active cr pr']> (pool s1))
                              (<[rc := false]> (queued s))) /\
            paired_exits (mkState (shared s1) (<[rc := Active cr pr']> (pool s1))
                                  (<[rc := false]> (queued s)))).
    destruct (Hwf _ _ _ Hrc) as (acts & Hsh & Haf).
    destruct cr; by_shape Hsh Haf; inversion Haf; subst; clear Haf Hsh;
      simpl in Hrv; try discriminate Hrv.
    all: count_facts s1 Hc1 Hnc1 Hrc'; change (shared s1) with (shared s) in *; react_inv Hrr.
    all: split; [eapply counting_update; [exact Hc1|exact Hnc1|exact Hrc'|..]; count_premises
                |eapply paired_exits_update; [exact Hpe1|exact Hrc'|exits_premise]].
  - destruct (Hwf _ _ _ Ht) as (acts & Hsh & Haf).
    destruct c; by_shape Hsh Haf; inversion Haf; subst; clear Haf Hsh.
    count_facts s Hc Hnc Ht. react_inv Hr. unfold set_thread.
    split; [eapply counting_update; [exact Hc|exact Hnc|exact Ht|..]; count_premises
           |eapply paired_exits_update; [exact Hpe|exact Ht|exits_premise]].
  - count_facts s Hc Hnc Ht. unfold set_thread.
    split; [eapply counting_update; [exact Hc|exact Hnc|exact Ht|..]; destruct c; count_premises
           |eapply paired_exits_update; [exact Hpe|exact Ht|exits_premise]].
  - split; [|exact Hpe]. intros Hnc'. exact (Hc Hnc').
  - split; [|exact Hpe]. intros Hnc'. exact (Hc Hnc').
Qed.

Lemma waiting_idle n : waiting (replicate n Idle) = 0.
Proof. induction n; simpl; lia. Qed.

Lemma run_counting l n now h s :
  run (init l n now) h s -> counting s /\ paired_exits s.
Proof.
  induction 1 as [|h s lab evs s' Hrun IH Hstep].
  - split.
    + intros _. simpl. rewrite waiting_idle. split; [reflexivity|]. now rewrite modulus_value.
    + intros t c _ H. simpl in H. apply lookup_replicate in H as [? _]. discriminate.
  - destruct IH as [Hc Hpe]. eapply counting_step; eauto.
    eapply run_wellformed; [apply init_all_idle|eassumption].
Qed.


(** C3.  When the select of a call of [WaitWithTimeout] has taken the
    timer case, the call does not read the clock again.  What is left of
    it is to take the lock, which it can do as soon as the lock is free,
    then to decrement the counter, which it can always do and which does
    not panic, and then to return [(0, false)]. *)
Theorem WaitWithTimeout_timed_out l n now h s t timeout p :
  run (init l n now) h s ->
  pool s !! t = Some (Active (CWaitWithTimeout timeout) p) ->
  woken_by t h = Some WTimer ->
  (forall m, p <> Panic m) /\
  (forall r, p = Ret r -> r = RDurBool 0 false) /\
  exists v ch b tm rest,
    rev (since_call t h)
      = [AAdd 1 v; AGetSignal ch; AUnlock; ANow b; AAfter tm; ATimer] ++ rest /\
    ((rest = [] /\
      exists k k', p = LockL (AddUint64 (U64.not 0) k) /\
        (crashed (pool s) = false -> holder (shared s) = None ->
         step s (Sched t)
           = Some ([(t, ALock)],
                   mkState (set_holder (Some t) (shared s))
                     (<[t := Active (CWaitWithTimeout timeout) k']> (pool s))
                     (queued s)) /\
         k' = AddUint64 (U64.not 0) k)) \/
     (rest = [ALock] /\
      exists k v', p = AddUint64 (U64.not 0) k /\
        (crashed (pool s) = false ->
         step s (Sched t)
           = Some ([(t, AAdd (U64.not 0) v')],
                   mkState (set_hasWaiters v' (shared s))
                     (<[t := Active (CWaitWithTimeout timeout) (Ret (RDurBool 0 false))]>
                        (pool s))
                     (queued s)))) \/
     (exists v', rest = [ALock; AAdd (U64.not 0) v'] /\ p = Ret (RDurBool 0 false))).
Proof.
  intros Hrun Ht.
  destruct (run_shape _ _ _ _ _ _ (init_all_idle l n now) Hrun Ht) as [Hsh Haf].
  destruct (run_counting _ _ _ _ _ Hrun) as [Hc Hpe].
  specialize (Hpe t (CWaitWithTimeout timeout) eq_refl).
  unfold woken_by. revert Hsh Haf. generalize (since_call t h). intros acts Hsh Haf.
  by_shape Hsh Haf; simpl; intros Hw; try discriminate Hw.
  all: inversion Haf; subst; try (exfalso; apply Hpe; exact Ht).
  all: split_and!; try (intros; discriminate); try (intros ? E; now inversion E).
  all: do 5 eexists; (split; [reflexivity|]).
  - left. split; [reflexivity|]. do 2 eexists. split; [reflexivity|].
    intros Hnc Hfree. split; [|reflexivity].
    eapply step_sched_eq; try eassumption; [|reflexivity].
    cbn [perform]. now rewrite Hfree.
  - right; left. split; [reflexivity|]. do 2 eexists. split; [reflexivity|].
    intros Hnc. count_facts s Hc Hnc Ht.
    eapply step_sched_eq; try eassumption; [reflexivity|].
    simpl.
    destruct (Z.eqb_spec (U64.add (hasWaiters (cond (shared s))) (U64.not 0))
                U64.MaxUint64) as [E|E]; [|reflexivity].
    exfalso. rewrite add_minus_one in E by (rewrite max_value; lia).
    rewrite max_value in E. lia.
  - right; right. eauto.
Qed.

Lemma WaitWithTimeout_timed_out_witness :
  run (init 0 2 0) (fst (outcome (init 0 2 0) timed_out))
      (snd (outcome (init 0 2 0) timed_out)) /\
  pool (snd (outcome (init 0 2 0) timed_out)) !! T0
    = Some (Active (CWaitWithTimeout 5) (Ret (RDurBool 0 false))) /\
  woken_by T0 (fst (outcome (init 0 2 0) timed_out)) = Some WTimer /\
  (forall m, Ret (RDurBool 0 false) <> Panic (R := retval) m).
Proof.
  assert (Hrun : run (init 0 2 0) (fst (outcome (init 0 2 0) timed_out))
                     (snd (outcome (init 0 2 0) timed_out))).
  { apply (exec_init_run _ timed_out). reflexivity. }
  assert (Ht : pool (snd (outcome (init 0 2 0) timed_out)) !! T0
               = Some (Active (CWaitWithTimeout 5) (Ret (RDurBool 0 false))))
    by reflexivity.
  assert (Hw : woken_by T0 (fst (outcome (init 0 2 0) timed_out)) = Some WTimer)
    by (vm_compute; reflexivity).
  split; [exact Hrun|]. split; [exact Ht|]. split; [exact Hw|].
  exact (proj1 (WaitWithTimeout_timed_out 0 2 0 _ _ T0 5 _ Hrun Ht Hw)).
Defined.

(** * Further properties *)

(** ** Who changes the lock and the generation *)

(** A step leaves the lock, the channels and the stored channel alone,
    unless the goroutine that moves is at a critical place, or takes the
    free lock. *)
Lemma step_frame s l evs s' :
  wellformed s -> step_spec s l evs s' ->
  (holder (shared s') = holder (shared s) /\
   chans (shared s') = chans (shared s) /\
   signal (cond (shared s')) = signal (cond (shared s)))
  \/ (exists t th, actor l = Some t /\ pool s !! t = Some th /\ holds_lock th = true)
  \/ (holder (shared s) = None /\
      chans (shared s') = chans (shared s) /\
      signal (cond (shared s')) = signal (cond (shared s))).
Proof.
  intros Hwf Hstep.
  destruct Hstep as [t c Ht|t c p a w p' Ht Hp Hr
    |sd rc cs c v ks cr pr ps' pr' Hsd Hrc Hne Hrv Hq Hch Hrs Hrr|t c ch tm k p' Ht Htm Hr
    |t c r Ht|d Hd|tp thp Htp Hqp Hmw]; cbn [shared set_thread set_clock holder chans cond signal]; auto.
  destruct (Hwf _ _ _ Ht) as (acts & Hsh & Haf).
  destruct c; by_shape Hsh Haf; inversion Haf; subst; clear Haf Hsh.
  all: perform_inv Hp; try discriminate Hp.
  all: try (left; split_and!; reflexivity).
  all: try (right; left; exists t; eexists; split_and!; [reflexivity|exact Ht|reflexivity]).
  all: right; right; split_and!; auto.
Qed.

(** ** The lock at the end of a wait *)

Lemma relocked_not_critical th : relocked th = true -> holds_lock th = false.
Proof.
  destruct th as [|c p]; [discriminate|].
  destruct c; try discriminate; destruct p; try discriminate; simpl;
    try case_bool_decide; simpl; congruence.
Qed.

Lemma relocking_update s t th th' w' q :
  relocking s -> safe s ->
  pool s !! t = Some th ->
  (relocked th' = true -> holder w' = Some t) ->
  (holder w' = holder (shared s) \/ holds_lock th = true \/ holder (shared s) = None) ->
  relocking (mkState w' (<[t := th']> (pool s)) q).
Proof.
  intros Hr Hs Ht P1 P2 u thu Hu Hrel. cbn [pool shared] in *.
  destruct (decide (u = t)) as [->|Hne].
  - rewrite list_lookup_insert_eq in Hu by (eapply lookup_lt_Some; eauto).
    injection Hu as <-. auto.
  - rewrite list_lookup_insert_ne in Hu by congruence.
    pose proof (Hr _ _ Hu Hrel) as Hh.
    destruct P2 as [P2|[P2|P2]]; [congruence| |congruence].
    pose proof (safe_lock s Hs _ _ Ht P2). congruence.
Qed.

Ltac relock_facts Hs Hr Ht :=
  let Hlock := fresh "Hlock" in
  let Hrel := fresh "Hrel" in
  pose proof (safe_lock _ Hs _ _ Ht) as Hlock;
  pose proof (Hr _ _ Ht) as Hrel;
  simpl in Hlock, Hrel;
  try rewrite not_zero_not_one in Hrel; simpl in Hrel.

Ltac relock_premises :=
  simpl; try rewrite not_zero_not_one; simpl;
  repeat (match goal with
          | |- context [if ?v =? ?n then _ else _] => destruct (Z.eqb_spec v n)
          end; simpl);
  try solve
    [ intuition (try congruence; try discriminate; auto)
    | intros; discriminate
    | intros; congruence ].

Lemma relocking_step s l evs s' :
  wellformed s -> safe s -> relocking s -> step s l = Some (evs, s') -> relocking s'.
Proof.
  intros Hwf Hs Hr Hstep. apply step_inv in Hstep as [_ Hstep].
  destruct Hstep as [t c Ht|t c p a w p' Ht Hp Hr'
    |sd rc cs c v ks cr pr ps' pr' Hsd Hrc Hne Hrv Hq Hch Hrs Hrr|t c ch tm k p' Ht Htm Hr'
    |t c r Ht|d Hd|tp thp Htp Hqp Hmw].
  - unfold set_thread. eapply relocking_update; [exact Hr|exact Hs|exact Ht|..];
      destruct c; relock_premises.
  - destruct (Hwf _ _ _ Ht) as (acts & Hsh & Haf).
    destruct c; by_shape Hsh Haf; inversion Haf; subst; clear Haf Hsh.
    all: relock_facts Hs Hr Ht.
    all: perform_inv Hp; react_inv Hr'.
    all: eapply relocking_update; [exact Hr|exact Hs|exact Ht|..]; relock_premises.
  - set (s1 := mkState (shared s) (<[sd := Active cs ps']> (pool s)) (queued s)).
    assert (H1 : relocking s1 /\ safe s1).
    { destruct (Hwf _ _ _ Hsd) as (acts & Hsh & Haf). unfold s1.
      destruct cs; by_shape Hsh Haf; inversion Haf; subst; clear Haf Hsh.
      react_inv Hrs.
      split; [eapply relocking_update; [exact Hr|exact Hs|exact Hsd|..]; relock_premises
             |eapply safe_update; [exact Hs|exact Hsd|..]; safe_premises]. }
    destruct H1 as [Hr1 Hs1].
    assert (Hrc' : pool s1 !! rc = Some (Active cr pr)).
    { unfold s1. cbn [pool]. now rewrite list_lookup_insert_ne. }
    change (relocking (mkState (shared s1) (<[rc := Active cr pr']> (pool s1))
                               (<[rc := false]> (queued s)))).
    destruct (Hwf _ _ _ Hrc) as (acts & Hsh & Haf).
    destruct cr; by_shape Hsh Haf; inversion Haf; subst; clear Haf Hsh;
      simpl in Hrv; try discriminate Hrv.
    all: react_inv Hrr.
    all: eapply relocking_update; [exact Hr1|exact Hs1|exact Hrc'|..]; relock_premises.
  - destruct (Hwf _ _ _ Ht) as (acts & Hsh & Haf).
    destruct c; by_shape Hsh Haf; inversion Haf; subst; clear Haf Hsh.
    react_inv Hr'. unfold set_thread.
    eapply relocking_update; [exact Hr|exact Hs|exact Ht|..]; relock_premises.
  - unfold set_thread. eapply relocking_update; [exact Hr|exact Hs|exact Ht|..];
      destruct c; relock_premises.
  - intros u thu Hu Hrel. exact (Hr u thu Hu Hrel).
  - intros u thu Hu Hrel. exact (Hr u thu Hu Hrel).
Qed.

Lemma run_ok_relocking l n now h s : run_ok (init l n now) h s -> relocking s.
Proof.
  induction 1 as [|h s lab evs s' Hrun IH Hal Hstep].
  - intros t th H. apply lookup_replicate in H as [-> _]. discriminate.
  - eapply relocking_step; eauto.
    + eapply run_wellformed; [apply init_all_idle|]. eapply run_ok_run; eauto.
    + eapply run_ok_safe; eauto.
Qed.

(** X1.  Under the locking discipline a wait that has run to its return
    holds the lock: the deferred [Lock] has taken it and nobody has
    released it since. *)
Theorem wait_returns_with_lock l n now h s t c r :
  run_ok (init l n now) h s ->
  pool s !! t = Some (Active c (Ret r)) ->
  is_wait c = true ->
  holder (shared s) = Some t.
Proof.
  intros Hrun Ht Hc. apply (run_ok_relocking _ _ _ _ _ Hrun t _ Ht).
  simpl. now rewrite Hc.
Qed.

Lemma wait_returns_with_lock_witness :
  run_ok (init 0 2 0) (fst (outcome (init 0 2 0) interrupted_wait))
         (snd (outcome (init 0 2 0) interrupted_wait)) /\
  pool (snd (outcome (init 0 2 0) interrupted_wait)) !! T0
    = Some (Active CWait (Ret (RBool true))) /\
  holder (shared (snd (outcome (init 0 2 0) interrupted_wait))) = Some T0.
Proof.
  assert (Hrun : run_ok (init 0 2 0) (fst (outcome (init 0 2 0) interrupted_wait))
                        (snd (outcome (init 0 2 0) interrupted_wait))).
  { apply (exec_run_ok (init 0 2 0) [] (init 0 2 0) interrupted_wait).
    - constructor.
    - vm_compute. tauto.
    - reflexivity. }
  assert (Ht : pool (snd (outcome (init 0 2 0) interrupted_wait)) !! T0
               = Some (Active CWait (Ret (RBool true)))) by reflexivity.
  split; [exact Hrun|]. split; [exact Ht|].
  exact (wait_returns_with_lock 0 2 0 _ _ T0 CWait (RBool true) Hrun Ht eq_refl).
Defined.

(** X2.  Under the locking discipline at most one goroutine at a time is
    at a critical place: in the entry of a wait (counting itself, reading
    [cond.signal], about to unlock), in [Interrupt] between its [Lock] and
    its [Unlock], or about to unlock for the caller.  So the read of
    [cond.signal] by a wait never runs while an [Interrupt] is replacing
    it. *)
Theorem one_in_critical_place l n now h s t1 t2 th1 th2 :
  run_ok (init l n now) h s ->
  pool s !! t1 = Some th1 -> holds_lock th1 = true ->
  pool s !! t2 = Some th2 -> holds_lock th2 = true ->
  t1 = t2.
Proof.
  intros Hrun H1 Hh1 H2 Hh2. pose proof (run_ok_safe _ _ _ _ _ Hrun) as Hs.
  pose proof (safe_lock s Hs _ _ H1 Hh1). pose proof (safe_lock s Hs _ _ H2 Hh2).
  congruence.
Qed.

Lemma one_in_critical_place_witness :
  run_ok (init 0 2 0) (fst (outcome (init 0 2 0) wait_called))
         (snd (outcome (init 0 2 0) wait_called)) /\
  pool (snd (outcome (init 0 2 0) wait_called)) !! T0
    = Some (Active CWait (call_prog CWait)) /\
  holds_lock (Active CWait (call_prog CWait)) = true /\
  T0 = T0.
Proof.
  assert (Hrun : run_ok (init 0 2 0) (fst (outcome (init 0 2 0) wait_called))
                        (snd (outcome (init 0 2 0) wait_called))).
  { apply (exec_run_ok (init 0 2 0) [] (init 0 2 0) wait_called).
    - constructor.
    - vm_compute. tauto.
    - reflexivity. }
  assert (Ht : pool (snd (outcome (init 0 2 0) wait_called)) !! T0
               = Some (Active CWait (call_prog CWait))) by reflexivity.
  split; [exact Hrun|]. split; [exact Ht|]. split; [reflexivity|].
  exact (one_in_critical_place 0 2 0 _ _ T0 T0 _ _ Hrun Ht eq_refl Ht eq_refl).
Defined.

(** ** HasWaiters while goroutines run *)

Lemma waiting_positive ths : (0 <? waiting ths) = existsb counted ths.
Proof.
  induction ths as [|th ths IH]; [reflexivity|]. simpl.
  pose proof (waiting_nonneg ths) as Hn.
  destruct (counted th); simpl.
  - apply Z.ltb_lt. lia.
  - exact IH.
Qed.

(** X3.  In every execution, as long as the process has not panicked,
    the counter is the number of goroutines that are inside a wait (past
    their [addWaiter], before the end of their [removeWaiter]), and
    [HasWaiters()] returns [true] exactly when there is such a
    goroutine. *)
Theorem HasWaiters_counts_waits l n now h s :
  run (init l n now) h s ->
  crashed (pool s) = false ->
  hasWaiters (cond (shared s)) = waiting (pool s) /\
  HasWaiters_in (shared s) = Some (existsb counted (pool s)).
Proof.
  intros Hrun Hnc. destruct (run_counting _ _ _ _ _ Hrun) as [Hc _].
  destruct (Hc Hnc) as [Hw _]. split; [exact Hw|].
  unfold HasWaiters_in. simpl. now rewrite Hw, waiting_positive.
Qed.

Lemma HasWaiters_counts_waits_witness :
  run (init 0 2 0) (fst (outcome (init 0 2 0) signal_pending))
      (snd (outcome (init 0 2 0) signal_pending)) /\
  crashed (pool (snd (outcome (init 0 2 0) signal_pending))) = false /\
  HasWaiters_in (shared (snd (outcome (init 0 2 0) signal_pending))) = Some true.
Proof.
  assert (Hrun : run (init 0 2 0) (fst (outcome (init 0 2 0) signal_pending))
                     (snd (outcome (init 0 2 0) signal_pending))).
  { apply (exec_init_run _ signal_pending). reflexivity. }
  assert (Hnc : crashed (pool (snd (outcome (init 0 2 0) signal_pending))) = false)
    by reflexivity.
  split; [exact Hrun|]. split; [exact Hnc|].
  exact (proj2 (HasWaiters_counts_waits 0 2 0 _ _ Hrun Hnc)).
Defined.

(** ** Nothing panics under the full discipline *)

Lemma run_strict_ok s0 h s : run_strict s0 h s -> run_ok s0 h s.
Proof.
  induction 1 as [|h s l evs s' Hrun IH [Hal _] Hstep]; econstructor; eauto.
Qed.

Lemma exec_run_strict s0 h s ls h' s' :
  run_strict s0 h s -> disciplined_strict s ls -> exec s h ls = Some (h', s') ->
  run_strict s0 h' s'.
Proof.
  revert h s. induction ls as [|l ls IH]; intros h s Hrun Hd He; simpl in He.
  - now inversion He; subst.
  - destruct Hd as [Hal Hd].
    destruct (step s l) as [[evs s1]|] eqn:Hs; [|discriminate].
    eapply IH; [|exact Hd|exact He]. econstructor; eauto.
Qed.

Lemma signalling_not_critical th : signalling th = true -> holds_lock th = false.
Proof. destruct th as [|[] []]; simpl; congruence. Qed.

(** [Signal] under the lock sees the stored channel open. *)
Lemma signaller_sees_open s t th :
  strict s -> safe s -> pool s !! t = Some th -> signalling th = true ->
  chans (shared s) !! signal (cond (shared s)) = Some false.
Proof.
  intros Hst Hs Ht Hsig. apply (safe_open s Hs).
  destruct (existsb window (pool s)) eqn:He; [|reflexivity].
  apply existsb_lookup_true in He as (u & thu & Hu & Hwu).
  pose proof (safe_lock s Hs _ _ Hu (window_holds _ Hwu)) as H1.
  pose proof (strict_lock s Hst _ _ Ht Hsig) as H2.
  assert (u = t) by congruence. subst u.
  pose proof (eq_trans (eq_sym Hu) Ht) as E. injection E as ->.
  pose proof (signalling_not_critical _ Hsig). pose proof (window_holds _ Hwu). congruence.
Qed.

Lemma strict_update s t th th' w' q :
  strict s -> safe s ->
  pool s !! t = Some th ->
  (signalling th' = true -> holder w' = Some t) ->
  (forall c v k, th' = Active CSignal (SelectSendDefault c v k) ->
     c = signal (cond w') /\ chans w' !! c = Some false) ->
  ((holder w' = holder (shared s) /\ chans w' = chans (shared s)
    /\ signal (cond w') = signal (cond (shared s)))
   \/ holds_lock th = true
   \/ (holder (shared s) = None /\ chans w' = chans (shared s)
       /\ signal (cond w') = signal (cond (shared s)))) ->
  strict (mkState w' (<[t := th']> (pool s)) q).
Proof.
  intros Hst Hs Ht P1 P2 P3.
  assert (Hlt : (t < length (pool s))%nat) by (eapply lookup_lt_Some; eauto).
  assert (Hother : forall u thu, u <> t -> pool s !! u = Some thu ->
            signalling thu = true ->
            holder w' = Some u /\ chans w' = chans (shared s)
            /\ signal (cond w') = signal (cond (shared s))).
  { intros u thu Hne Hu Hsig. pose proof (strict_lock s Hst _ _ Hu Hsig) as Hl.
    destruct P3 as [(P3 & P3' & P3'')|[P3|(P3 & P3' & P3'')]];
      [split_and!; congruence| |congruence].
    pose proof (safe_lock s Hs _ _ Ht P3). congruence. }
  constructor; cbn [shared pool].
  - intros u thu Hu Hsig. destruct (decide (u = t)) as [->|Hne].
    + rewrite list_lookup_insert_eq in Hu by assumption. injection Hu as <-. auto.
    + rewrite list_lookup_insert_ne in Hu by congruence.
      now destruct (Hother _ _ Hne Hu Hsig).
  - intros u c v k Hu. destruct (decide (u = t)) as [->|Hne].
    + rewrite list_lookup_insert_eq in Hu by assumption. injection Hu as Hu. eauto.
    + rewrite list_lookup_insert_ne in Hu by congruence.
      destruct (Hother _ _ Hne Hu eq_refl) as (_ & Hc & Hsg). rewrite Hc, Hsg.
      eapply strict_send; eauto.
Qed.

Ltac strict_facts Hs Hst Ht :=
  let Hlock := fresh "Hlock" in
  let Hsl := fresh "Hsl" in
  pose proof (safe_lock _ Hs _ _ Ht) as Hlock;
  pose proof (strict_lock _ Hst _ _ Ht) as Hsl;
  simpl in Hlock, Hsl;
  try (pose proof (signaller_sees_open _ _ _ Hst Hs Ht eq_refl)).

Ltac strict_premises :=
  simpl;
  repeat (match goal with
          | |- context [if ?v =? ?n then _ else _] => destruct (Z.eqb_spec v n)
          end; simpl);
  try solve
    [ intuition (try congruence; try discriminate; auto)
    | intros; discriminate
    | intros; congruence
    | intros ? ? ? E; inversion E; subst; split; [reflexivity|assumption] ].

Lemma strict_step s l evs s' :
  wellformed s -> safe s -> strict s -> allowed_strict s l ->
  step s l = Some (evs, s') -> strict s'.
Proof.
  intros Hwf Hs Hst [Hal Hal'] Hstep. apply step_inv in Hstep as [_ Hstep].
  destruct Hstep as [t c Ht|t c p a w p' Ht Hp Hr
    |sd rc cs c v ks cr pr ps' pr' Hsd Hrc Hne Hrv Hq Hch Hrs Hrr|t c ch tm k p' Ht Htm Hr
    |t c r Ht|d Hd|tp thp Htp Hqp Hmw].
  - unfold set_thread. eapply strict_update; [exact Hst|exact Hs|exact Ht|..];
      destruct c; simpl in Hal'; strict_premises.
  - destruct (Hwf _ _ _ Ht) as (acts & Hsh & Haf).
    destruct c; by_shape Hsh Haf; inversion Haf; subst; clear Haf Hsh.
    all: strict_facts Hs Hst Ht.
    all: perform_inv Hp; react_inv Hr.
    all: eapply strict_update; [exact Hst|exact Hs|exact Ht|..]; strict_premises.
  - set (s1 := mkState (shared s) (<[sd := Active cs ps']> (pool s)) (queued s)).
    assert (H1 : strict s1 /\ safe s1).
    { destruct (Hwf _ _ _ Hsd) as (acts & Hsh & Haf). unfold s1.
      destruct cs; by_shape Hsh Haf; inversion Haf; subst; clear Haf Hsh.
      react_inv Hrs.
      split; [eapply strict_update; [exact Hst|exact Hs|exact Hsd|..]; strict_premises
             |eapply safe_update; [exact Hs|exact Hsd|..]; safe_premises]. }
    destruct H1 as [Hst1 Hs1].
    assert (Hrc' : pool s1 !! rc = Some (Active cr pr)).
    { unfold s1. cbn [pool]. now rewrite list_lookup_insert_ne. }
    change (strict (mkState (shared s1) (<[rc := Active cr pr']> (pool s1))
                            (<[rc := false]> (queued s)))).
    destruct (Hwf _ _ _ Hrc) as (acts & Hsh & Haf).
    destruct cr; by_shape Hsh Haf; inversion Haf; subst; clear Haf Hsh;
      simpl in Hrv; try discriminate Hrv.
    all: react_inv Hrr.
    all: eapply strict_update; [exact Hst1|exact Hs1|exact Hrc'|..]; strict_premises.
  - destruct (Hwf _ _ _ Ht) as (acts & Hsh & Haf).
    destruct c; by_shape Hsh Haf; inversion Haf; subst; clear Haf Hsh.
    react_inv Hr. unfold set_thread.
    eapply strict_update; [exact Hst|exact Hs|exact Ht|..]; strict_premises.
  - unfold set_thread. eapply strict_update; [exact Hst|exact Hs|exact Ht|..];
      destruct c; strict_premises.
  - destruct Hst as [H1 H2]. constructor; cbn [shared pool set_clock]; auto.
  - destruct Hst as [H1 H2]. constructor; cbn [shared pool]; auto.
Qed.

Lemma run_length l n now h s : run (init l n now) h s -> length (pool s) = n.
Proof.
  induction 1 as [|h s lab evs s' Hrun IH Hstep]; [apply length_replicate|].
  apply step_inv in Hstep as [_ Hstep].
  destruct Hstep; cbn [pool set_thread]; rewrite ?length_insert; exact IH.
Qed.

Lemma waiting_le_length ths : waiting ths <= Z.of_nat (length ths).
Proof.
  induction ths as [|th ths IH]; simpl; [lia|]. destruct (counted th); simpl; lia.
Qed.

Lemma waiting_room ths t th :
  ths !! t = Some th -> counted th = false -> waiting ths + 1 <= Z.of_nat (length ths).
Proof.
  revert t. induction ths as [|x ths IH]; intros t Ht Hc; [discriminate|].
  destruct t; simpl in *.
  - injection Ht as ->. rewrite Hc. pose proof (waiting_le_length ths). simpl. lia.
  - specialize (IH _ Ht Hc). destruct (counted x); simpl; lia.
Qed.

Ltac calm_facts s Hs Hst Hc Hnc Hlen Ht :=
  let Hlock := fresh "Hlock" in
  let Hroom := fresh "Hroom" in
  pose proof (safe_lock _ Hs _ _ Ht) as Hlock; simpl in Hlock;
  try specialize (Hlock eq_refl);
  try (pose proof (safe_close _ Hs _ _ _ Ht));
  try (pose proof (strict_send _ Hst _ _ _ _ Ht));
  count_facts s Hc Hnc Ht;
  pose proof (waiting_room _ _ _ Ht) as Hroom;
  cbn [counted is_wait andb] in Hroom; simpl in Hroom;
  try specialize (Hroom eq_refl).

Ltac calm_thread :=
  simpl;
  repeat (match goal with
          | |- context [if ?v =? ?n then _ else _] => destruct (Z.eqb_spec v n)
          end; simpl);
  try reflexivity;
  try (exfalso;
       match goal with
       | H : U64.add _ (U64.not 0) = U64.MaxUint64 |- _ =>
           rewrite add_minus_one in H by (rewrite max_value; lia);
           rewrite max_value in H; lia
       | H : U64.add _ 1 = 0 |- _ =>
           rewrite add_one in H by (rewrite max_value; lia); lia
       end).

Ltac calm_goal :=
  first
    [ solve [exfalso; intuition congruence]
    | apply crashed_set; [assumption|calm_thread] ].

Lemma calm_step s l evs s' :
  wellformed s -> safe s -> strict s -> counting s ->
  Z.of_nat (length (pool s)) < U64.modulus ->
  step s l = Some (evs, s') -> crashed (pool s') = false.
Proof.
  intros Hwf Hs Hst Hc Hlen Hstep. apply step_inv in Hstep as [Hnc Hstep].
  rewrite modulus_value in Hlen.
  destruct Hstep as [t c Ht|t c p a w p' Ht Hp Hr
    |sd rc cs c v ks cr pr ps' pr' Hsd Hrc Hne Hrv Hq Hch Hrs Hrr|t c ch tm k p' Ht Htm Hr
    |t c r Ht|d Hd|tp thp Htp Hqp Hmw]; cbn [pool set_thread].
  - apply crashed_set; [assumption|]. now destruct c.
  - destruct (Hwf _ _ _ Ht) as (acts & Hsh & Haf).
    destruct c; by_shape Hsh Haf; inversion Haf; subst; clear Haf Hsh.
    all: calm_facts s Hs Hst Hc Hnc Hlen Ht.
    all: perform_inv Hp; react_inv Hr.
    all: calm_goal.
  - destruct (Hwf _ _ _ Hsd) as (acts & Hsh & Haf).
    destruct cs; by_shape Hsh Haf; inversion Haf; subst; clear Haf Hsh.
    react_inv Hrs.
    destruct (Hwf _ _ _ Hrc) as (acts & Hsh & Haf).
    destruct cr; by_shape Hsh Haf; inversion Haf; subst; clear Haf Hsh;
      simpl in Hrv; try discriminate Hrv.
    all: react_inv Hrr.
    all: apply crashed_set; [apply crashed_set; [assumption|reflexivity]|reflexivity].
  - destruct (Hwf _ _ _ Ht) as (acts & Hsh & Haf).
    destruct c; by_shape Hsh Haf; inversion Haf; subst; clear Haf Hsh.
    react_inv Hr. apply crashed_set; [assumption|reflexivity].
  - apply crashed_set; [assumption|reflexivity].
  - assumption.
  - assumption.
Qed.

Lemma init_strict l n now : strict (init l n now).
Proof.
  constructor; simpl.
  - intros t th H. apply lookup_replicate in H as [-> _]. discriminate.
  - intros t c v k H. apply lookup_replicate in H as [? _]. discriminate.
Qed.

Lemma run_strict_strict l n now h s : run_strict (init l n now) h s -> strict s.
Proof.
  induction 1 as [|h s lab evs s' Hrun IH Hal Hstep].
  - apply init_strict.
  - pose proof (run_strict_ok _ _ _ Hrun) as Hok.
    eapply strict_step; eauto.
    + eapply run_wellformed; [apply init_all_idle|]. eapply run_ok_run; eauto.
    + eapply run_ok_safe; eauto.
Qed.

(** Under the full discipline the process does not crash. *)
Lemma run_strict_calm l n now h s :
  Z.of_nat n < U64.modulus ->
  run_strict (init l n now) h s ->
  crashed (pool s) = false.
Proof.
  intros Hn Hrun.
  induction Hrun as [|h s lab evs s' Hrun IH Hal Hstep]; [apply crashed_idle|].
  pose proof (run_strict_ok _ _ _ Hrun) as Hok.
  pose proof (run_ok_run _ _ _ Hok) as Hr.
  eapply calm_step; [| | | | |exact Hstep].
  - eapply run_wellformed; [apply init_all_idle|exact Hr].
  - eapply run_ok_safe; eauto.
  - eapply run_strict_strict; eauto.
  - apply (run_counting _ _ _ _ _ Hr).
  - now rewrite (run_length _ _ _ _ _ Hr).
Qed.

(** X5.  When the callers hold the lock around [Wait], [WaitWithTimeout]
    and [Signal] (and unlock only what they hold), and fewer than 2^64
    goroutines use the condition, no call ever panics: the counter checks
    of [addWaiter] and [removeWaiter] never fire, [Interrupt] never closes
    a closed channel, [Signal] never sends on a closed channel, and no
    [Unlock] finds the lock free. *)
Theorem no_panic_under_discipline l n now h s :
  Z.of_nat n < U64.modulus ->
  run_strict (init l n now) h s ->
  crashed (pool s) = false /\
  forall t c m, pool s !! t <> Some (Active c (Panic m)).
Proof.
  intros Hn Hrun. pose proof (run_strict_calm _ _ _ _ _ Hn Hrun) as Hnc.
  split; [exact Hnc|]. intros t c m Ht.
  pose proof (existsb_lookup_false _ _ _ _ Hnc Ht) as H. discriminate H.
Qed.

Lemma no_panic_under_discipline_witness :
  Z.of_nat 2 < U64.modulus /\
  run_strict (init 0 2 0) (fst (outcome (init 0 2 0) signalled_wait))
             (snd (outcome (init 0 2 0) signalled_wait)) /\
  pool (snd (outcome (init 0 2 0) signalled_wait)) !! T0
    = Some (Active CWait (Ret (RBool false))) /\
  crashed (pool (snd (outcome (init 0 2 0) signalled_wait))) = false.
Proof.
  assert (Hn : Z.of_nat 2 < U64.modulus) by reflexivity.
  assert (Hrun : run_strict (init 0 2 0) (fst (outcome (init 0 2 0) signalled_wait))
                            (snd (outcome (init 0 2 0) signalled_wait))).
  { apply (exec_run_strict (init 0 2 0) [] (init 0 2 0) signalled_wait).
    - constructor.
    - vm_compute. tauto.
    - reflexivity. }
  split; [exact Hn|]. split; [exact Hrun|]. split; [reflexivity|].
  exact (proj1 (no_panic_under_discipline 0 2 0 _ _ Hn Hrun)).
Defined.

(** * [Signal] outside the lock *)

Ltac pool_lookup :=
  cbn [pool set_thread shared];
  repeat first
    [ assumption
    | rewrite list_lookup_insert_eq by (rewrite ?length_insert; assumption)
    | rewrite list_lookup_insert_ne by congruence
    | reflexivity ].

Ltac pool_calm :=
  cbn [pool set_thread shared];
  repeat (apply crashed_set; [|reflexivity]); assumption.

Lemma unrestricted_disciplined ls s :
  forallb unrestricted ls = true -> disciplined s ls.
Proof.
  revert s. induction ls as [|l ls IH]; intros s H; [exact I|].
  simpl in H. apply andb_true_iff in H as [Hl Hls]. split.
  - destruct l as [t []| | | | | |]; try exact I; discriminate.
  - destruct (step s l) as [[evs s']|]; [now apply IH|exact I].
Qed.

Lemma crashed_stuck s l : crashed (pool s) = true -> step s l = None.
Proof. intros H. unfold step. now rewrite H. Qed.

Lemma panicked_crashed ths t c m :
  ths !! t = Some (Active c (Panic m)) -> crashed ths = true.
Proof.
  intros Ht. destruct (crashed ths) eqn:E; [reflexivity|].
  now pose proof (existsb_lookup_false _ _ _ _ E Ht).
Qed.

(** X6.  [Signal] called without the lock can panic: when it has read
    [cond.signal] and an [Interrupt] closes that channel before the
    select runs, the select sends on a closed channel.  The callers of
    the waits keep their discipline in this execution; the process ends
    there. *)
Theorem Signal_outside_lock_can_panic s h t u :
  t <> u ->
  pool s !! t = Some Idle -> pool s !! u = Some Idle ->
  crashed (pool s) = false ->
  holder (shared s) = None ->
  chans (shared s) !! signal (cond (shared s)) = Some false ->
  let c := signal (cond (shared s)) in
  let ls := [Call t CSignal; Sched t; Call u CInterrupt; Sched u; Sched u; Sched u;
             Sched t] in
  disciplined s ls /\
  exists s',
    exec s h ls
      = Some ([(t, AFail closed_send); (u, AClose c); (u, AGetSignal c); (u, ALock);
               (u, ACall CInterrupt); (t, AGetSignal c); (t, ACall CSignal)] ++ h, s') /\
    pool s' !! t = Some (Active CSignal (Panic closed_send)) /\
    pool s' !! u = Some (Active CInterrupt
                           (MakeChan (fun c' => SetSignal c' (UnlockL (Ret RUnit))))) /\
    forall l, step s' l = None.
Proof.
  intros Hne Ht Hu Hc Hfree Hopen c ls. subst c ls.
  assert (Hlt : (t < length (pool s))%nat) by (eapply lookup_lt_Some; eauto).
  assert (Hlu : (u < length (pool s))%nat) by (eapply lookup_lt_Some; eauto).
  assert (Hlc : (signal (cond (shared s)) < length (chans (shared s)))%nat)
    by (eapply lookup_lt_Some; eauto).
  split; [now apply unrestricted_disciplined|].
  eexists. split; [|split; [|split]].
  - cbn [exec]. rewrite step_call_eq by assumption.
    unfold set_thread. cbn [exec shared pool call_prog].
    erewrite step_sched_eq; [| pool_calm | pool_lookup | reflexivity | reflexivity].
    cbn [exec]. rewrite step_call_eq by first [pool_calm | pool_lookup].
    unfold set_thread. cbn [exec shared pool call_prog].
    erewrite step_sched_eq;
      [| pool_calm | pool_lookup | simpl; rewrite Hfree; reflexivity | reflexivity].
    cbn [exec].
    erewrite step_sched_eq; [| pool_calm | pool_lookup | reflexivity | reflexivity].
    cbn [exec].
    erewrite step_sched_eq;
      [| pool_calm | pool_lookup
       | simpl; unfold chan in *; rewrite Hopen; reflexivity
       | simpl; case_decide; [reflexivity|congruence] ].
    cbn [exec].
    erewrite step_sched_eq;
      [| pool_calm | pool_lookup
       | simpl; unfold chan in *; rewrite list_lookup_insert_eq by assumption; reflexivity
       | reflexivity ].
    reflexivity.
  - pool_lookup.
  - pool_lookup.
  - intros l. apply crashed_stuck. eapply panicked_crashed. pool_lookup.
Qed.

Lemma Signal_outside_lock_can_panic_witness :
  T0 <> T1 /\
  pool (init 0 2 0) !! T0 = Some Idle /\ pool (init 0 2 0) !! T1 = Some Idle /\
  crashed (pool (init 0 2 0)) = false /\
  holder (shared (init 0 2 0)) = None /\
  chans (shared (init 0 2 0)) !! signal (cond (shared (init 0 2 0))) = Some false /\
  exists s',
    exec (init 0 2 0) []
      [Call T0 CSignal; Sched T0; Call T1 CInterrupt; Sched T1; Sched T1; Sched T1;
       Sched T0]
    = Some ([(T0, AFail closed_send); (T1, AClose 0%nat); (T1, AGetSignal 0%nat);
             (T1, ALock); (T1, ACall CInterrupt); (T0, AGetSignal 0%nat);
             (T0, ACall CSignal)], s') /\
    pool s' !! T0 = Some (Active CSignal (Panic closed_send)).
Proof.
  assert (Hne : T0 <> T1) by discriminate.
  split; [exact Hne|]. do 5 (split; [reflexivity|]).
  pose proof (Signal_outside_lock_can_panic (init 0 2 0) [] T0 T1
                Hne eq_refl eq_refl eq_refl eq_refl eq_refl) as H.
  cbv zeta in H. destruct H as [_ (s' & He & Hp & _)].
  exists s'. split; [exact He|exact Hp].
Defined.

(** * Who writes what *)

(** X7.  Who writes what, in every execution: no step changes the locker
    of the condition; the counter changes only in a step of a goroutine
    that is executing [Wait] or [WaitWithTimeout]; the stored channel and
    the channels themselves change only in a step of a goroutine that is
    executing [Interrupt]; and a goroutine executing [HasWaiters] changes
    nothing at all. *)
Theorem shared_state_writers l n now h s lab evs s' :
  run (init l n now) h s ->
  step s lab = Some (evs, s') ->
  L (cond (shared s')) = L (cond (shared s)) /\
  (hasWaiters (cond (shared s')) <> hasWaiters (cond (shared s)) ->
     exists t c p, lab = Sched t /\ pool s !! t = Some (Active c p) /\ is_wait c = true) /\
  (signal (cond (shared s')) <> signal (cond (shared s)) \/
   chans (shared s') <> chans (shared s) ->
     exists t p, lab = Sched t /\ pool s !! t = Some (Active CInterrupt p)) /\
  (forall t p, actor lab = Some t -> pool s !! t = Some (Active CHasWaiters p) ->
     shared s' = shared s).
Proof.
  intros Hrun Hstep.
  apply step_inv in Hstep as [_ Hstep].
  destruct Hstep as [u c Hu|u c q a w p' Hu Hp Hr
    |sd rc cs c v ks cr pr ps' pr' Hs Hrc Hne Hrv Hq Hch Hrs Hrr|u c ch tm k p' Hu Htm Hr
    |u c r Hu|d Hd|tp thp Htp Hqp Hmw]; cbn [shared set_thread].
  all: try (split_and!; [reflexivity|congruence|intros [?|?]; congruence|reflexivity]).
  - destruct (run_shape _ _ _ _ _ _ (init_all_idle l n now) Hrun Hu) as [Hsh Haf].
    revert Hsh Haf. generalize (since_call u h). intros acts Hsh Haf.
    by_shape Hsh Haf; inversion Haf; subst;
      try (match goal with c0 : call |- _ => destruct c0 end); simpl in Hp;
      repeat (match type of Hp with
              | context [match ?x with _ => _ end] => destruct x
              end); inversion Hp; subst; cbn.
    all: split_and!; try reflexivity; try congruence;
      try (intros [?|?]; congruence);
      try (intros _; eexists _, _, _; split_and!; [reflexivity|eassumption|reflexivity]);
      try (intros _; eexists _, _; split_and!; [reflexivity|eassumption]);
      try (intros t p Ht Hp'; injection Ht as <-; congruence).
  - cbn. split_and!; [reflexivity|congruence|intros [?|?]; congruence|].
    intros t p Ht. discriminate.
Qed.

Lemma shared_state_writers_witness :
  run (init 0 2 0) (fst (outcome (init 0 2 0) wait_called))
      (snd (outcome (init 0 2 0) wait_called)) /\
  step (snd (outcome (init 0 2 0) wait_called)) (Sched T0)
    = Some ([(T0, AAdd 1 1)], snd (outcome (init 0 2 0) wait_counted)) /\
  hasWaiters (cond (shared (snd (outcome (init 0 2 0) wait_counted)))) = 1 /\
  L (cond (shared (snd (outcome (init 0 2 0) wait_counted))))
    = L (cond (shared (snd (outcome (init 0 2 0) wait_called)))).
Proof.
  assert (Hrun : run (init 0 2 0) (fst (outcome (init 0 2 0) wait_called))
                     (snd (outcome (init 0 2 0) wait_called))).
  { apply (exec_init_run _ wait_called). reflexivity. }
  assert (Hstep : step (snd (outcome (init 0 2 0) wait_called)) (Sched T0)
                  = Some ([(T0, AAdd 1 1)], snd (outcome (init 0 2 0) wait_counted)))
    by reflexivity.
  split; [exact Hrun|]. split; [exact Hstep|]. split; [reflexivity|].
  exact (proj1 (shared_state_writers 0 2 0 _ _ (Sched T0) _ _ Hrun Hstep)).
Defined.
(** * Where the events of an execution come from *)

Lemma since_call_in t a h : In a (since_call t h) -> In (t, a) h.
Proof.
  induction h as [|[u b] h IH]; simpl; [auto|].
  destruct (decide (u = t)) as [->|Hne]; [|auto].
  destruct b; simpl; intuition congruence.
Qed.

(** An action of the current call of [t] has a place in the history, with
    no call of [t] after it. *)
Lemma since_call_split t a h :
  In a (since_call t h) ->
  exists h1 h2, h = h2 ++ (t, a) :: h1 /\ no_call t h2.
Proof.
  induction h as [|[u b] h IH]; simpl; [intros []|].
  destruct (decide (u = t)) as [->|Hne].
  - destruct b; simpl; intros Hin; try (destruct Hin; fail).
    all: destruct Hin as [<-|Hin];
      [exists h, []; split; [reflexivity|intros cl []]
      |destruct (IH Hin) as (h1 & h2 & -> & Hno);
       exists h1; eexists (_ :: h2); split; [reflexivity|];
       intros cl [Hc|Hc]; [discriminate|now apply (Hno cl)]].
  - intros Hin. destruct (IH Hin) as (h1 & h2 & -> & Hno).
    exists h1, ((u, b) :: h2). split; [reflexivity|].
    intros c [Hc|Hc]; [congruence|now apply (Hno c)].
Qed.

Ltac event_in Hin :=
  simpl in Hin;
  repeat (match type of Hin with
          | _ \/ _ => destruct Hin as [Hin|Hin]
          | False => destruct Hin
          end);
  try discriminate Hin.

(** Every event but the receipt of a value is the last event of a step. *)
Lemma run_split_at s0 h s :
  run s0 h s ->
  forall h2 t a h1, h = h2 ++ (t, a) :: h1 ->
    (forall sd c v, a <> ARecvFrom sd c v) ->
    exists s1 lab evs s2,
      run s0 h1 s1 /\ step s1 lab = Some (evs, s2) /\ In (t, a) evs.
Proof.
  induction 1 as [|h s lab evs s' Hrun IH Hstep]; intros h2 t a h1 E Ha.
  - now destruct h2.
  - pose proof Hstep as Hstep'. apply step_inv in Hstep' as [_ Hsp].
    apply app_eq_inv in E as [(k & E1 & E2)|(k & E1 & E2)].
    + destruct k as [|e k].
      * simpl in E2. subst. apply (IH [] t a h1 eq_refl Ha).
      * injection E2 as <- ->.
        assert (Hk : k = []).
        { destruct Hsp; destruct h2 as [|? [|? h2]]; simpl in E1;
            try discriminate E1; inversion E1; subst; try reflexivity.
          - exfalso. eapply Ha. reflexivity.
          - now destruct h2. }
        subst k. exists s, lab, evs, s'. split_and!; try assumption.
        rewrite E1. apply in_or_app. right. now left.
    + subst. apply (IH k t a h1 eq_refl Ha).
Qed.

Lemma perform_closed_before {R} t w ths (p : prog R) a w' ch :
  perform t w ths p = Some (a, w') ->
  chans w' !! ch = Some true -> chans w !! ch = Some true \/ a = AClose ch.
Proof.
  intros Hp Hch. destruct p; perform_cases Hp;
    injection Hp as <- <-; simpl in Hch; auto.
  - left. destruct (decide (ch < length (chans w))%nat) as [Hlt|Hge].
    + now rewrite lookup_app_l in Hch.
    + rewrite lookup_app_r in Hch by lia.
      destruct (ch - length (chans w))%nat as [|[|]]; discriminate.
  - destruct (decide (c = ch)) as [->|Hne]; [now right|].
    left. now rewrite list_lookup_insert_ne in Hch.
Qed.

(** A closed channel has been closed by somebody. *)
Lemma closed_origin l n now h s ch :
  run (init l n now) h s -> chans (shared s) !! ch = Some true ->
  exists ti, In (ti, AClose ch) h.
Proof.
  induction 1 as [|h s lab evs s' Hrun IH Hstep]; intros Hch.
  - simpl in Hch. destruct ch as [|[|]]; discriminate.
  - apply step_inv in Hstep as [_ Hstep].
    destruct Hstep as [t c Ht|t c p a w p' Ht Hp Hr
      |sd rc cs c v ks cr pr ps' pr' Hsd Hrc Hne Hrv Hq Hch' Hrs Hrr|t c c' tm k p' Ht Htm Hr
      |t c r Ht|d Hd|tp thp Htp Hqp Hmw]; cbn [shared set_thread set_clock chans] in Hch.
    2:{ destruct (perform_closed_before _ _ _ _ _ _ _ Hp Hch) as [Hb| ->].
        - destruct (IH Hb) as (ti & Hin). exists ti. now right.
        - exists t. now left. }
    all: destruct (IH Hch) as (ti & Hin); exists ti; apply in_or_app; now right.
Qed.

Lemma performed_later s0 h evs t c a :
  performed s0 h t c a -> performed s0 (evs ++ h) t c a.
Proof.
  intros (h1 & h2 & s1 & p & -> & Hrun & Ht).
  exists h1, (evs ++ h2), s1, p. split_and!; try assumption. now rewrite app_assoc.
Qed.

(** Only [Interrupt] closes a channel. *)
Lemma close_performed s0 h s ti ch :
  all_idle s0 -> run s0 h s -> In (ti, AClose ch) h ->
  performed s0 h ti CInterrupt (AClose ch).
Proof.
  intros H0. induction 1 as [|h s lab evs s' Hrun IH Hstep]; intros Hin; [destruct Hin|].
  apply in_app_or in Hin as [Hin|Hin]; [|apply performed_later; auto].
  apply step_inv in Hstep as [_ Hstep].
  destruct Hstep as [t c Ht|t c p a w p' Ht Hp Hr
    |sd rc cs c v ks cr pr ps' pr' Hsd Hrc Hne Hrv Hq Hch' Hrs Hrr|t c c' tm k p' Ht Htm Hr
    |t c r Ht|d Hd|tp thp Htp Hqp Hmw].
  all: event_in Hin.
  injection Hin as -> ->.
  destruct (run_shape _ _ _ _ _ _ H0 Hrun Ht) as [Hsh Haf].
  assert (Hc : c = CInterrupt).
  { revert Hsh Haf. generalize (since_call ti h). intros acts Hsh Haf.
    by_shape Hsh Haf; inversion Haf; subst; try reflexivity;
      try (destruct c);
      simpl in Hp;
      repeat (match type of Hp with
              | context [match ?x with _ => _ end] => destruct x
              | context [if ?x then _ else _] => destruct x
              end); try discriminate Hp; try reflexivity. }
  subst c. exists h, [], s, p. auto.
Qed.

(** Only [Signal] sends, and it sends 1. *)
Lemma post_performed s0 h s t sd ch x :
  all_idle s0 -> run s0 h s -> In (t, ARecvFrom sd ch x) h ->
  x = 1 /\ performed s0 h sd CSignal (ASend ch 1).
Proof.
  intros H0. induction 1 as [|h s lab evs s' Hrun IH Hstep]; intros Hin; [destruct Hin|].
  apply in_app_or in Hin as [Hin|Hin].
  2:{ destruct (IH Hin) as [Hx Hp]. split; [assumption|]. now apply performed_later. }
  apply step_inv in Hstep as [_ Hstep].
  destruct Hstep as [u c Ht|u c p a w p' Ht Hp Hr
    |sd' rc cs c v ks cr pr ps' pr' Hsd Hrc Hne Hrv Hq Hch' Hrs Hrr|u c c' tm k p' Ht Htm Hr
    |u c r Ht|d Hd|tp thp Htp Hqp Hmw].
  all: event_in Hin.
  - injection Hin as -> ->. exfalso. eapply perform_no_post; eauto.
  - injection Hin as -> -> -> ->.
    destruct (run_shape _ _ _ _ _ _ H0 Hrun Hsd) as [Hsh Haf].
    assert (Hc : cs = CSignal /\ x = 1).
    { revert Hsh Haf. generalize (since_call sd h). intros acts Hsh Haf.
      by_shape Hsh Haf; inversion Haf; subst; try (destruct cs; discriminate); auto. }
    destruct Hc as [-> ->]. split; [reflexivity|].
    exists h, [(t, ARecvFrom sd ch 1)], s, (SelectSendDefault ch 1 ks). auto.
Qed.

(** What a wait reads is the stored channel. *)
Lemma capture_performed s0 h s t ch :
  run s0 h s -> In (AGetSignal ch) (since_call t h) -> captured s0 h t ch.
Proof.
  intros Hrun Hin. destruct (since_call_split _ _ _ Hin) as (h1 & h2 & E & Hno).
  destruct (run_split_at _ _ _ Hrun h2 t _ h1 E) as (s1 & lab & evs & s2 & Hr1 & Hstep & Hev);
    [discriminate|].
  exists h1, h2, s1. split_and!; try assumption.
  apply step_inv in Hstep as [_ Hstep].
  destruct Hstep as [u c Ht|u c p a w p' Ht Hp Hr
    |sd' rc cs c v ks cr pr ps' pr' Hsd Hrc Hne Hrv Hq Hch' Hrs Hrr|u c c' tm k p' Ht Htm Hr
    |u c r Ht|d Hd|tp thp Htp Hqp Hmw].
  all: event_in Hev.
  injection Hev as -> ->. destruct p; perform_cases Hp. now injection Hp as ->.
Qed.

(** * The result of [Wait] *)

(** C1.  When a call of [Wait] has completed, it has counted itself, read
    [cond.signal], released the lock, and received on the channel it had
    read; then it has taken the lock and decremented the counter.  The
    boolean it returns is [true] exactly when that receive was ended by
    the close of that channel, which an [Interrupt] performed (close-all),
    and [false] exactly when it was ended by a value sent on that channel,
    which is the 1 that a [Signal] sends (post-one). *)
Theorem Wait_result l n now h s t r :
  run (init l n now) h s ->
  pool s !! t = Some (Active CWait (Ret r)) ->
  exists b, r = RBool b /\
    (b = true <-> woken_by t h = Some WClose) /\
    (b = false <-> exists sd x, woken_by t h = Some (WPost sd x)) /\
    exists v ch w v',
      rev (since_call t h)
        = [AAdd 1 v; AGetSignal ch; AUnlock; wake_act ch w; ALock; AAdd (U64.not 0) v'] /\
      captured (init l n now) h t ch /\
      woken_by t h = Some w /\
      b = is_close w /\
      (w = WClose ->
         exists ti, performed (init l n now) h ti CInterrupt (AClose ch)) /\
      (forall sd x, w = WPost sd x ->
         x = 1 /\ performed (init l n now) h sd CSignal (ASend ch 1)).
Proof.
  intros Hrun Ht.
  pose proof (init_all_idle l n now) as H0.
  destruct (run_shape _ _ _ _ _ _ H0 Hrun Ht) as [Hsh Haf].
  assert (Hcap : forall ch, In (AGetSignal ch) (since_call t h) ->
            captured (init l n now) h t ch)
    by (intros ch; apply (capture_performed _ _ _ _ _ Hrun)).
  assert (Hclose : forall ch, In (ARecvClosed ch) (since_call t h) ->
            exists ti, performed (init l n now) h ti CInterrupt (AClose ch)).
  { intros ch Hin. apply since_call_in in Hin.
    destruct (in_split _ _ Hin) as (h2 & h1 & E).
    destruct (run_split_at _ _ _ Hrun h2 t _ h1 E) as (s1 & lab & evs & s2 & Hr1 & Hstep & Hev);
      [discriminate|].
    assert (Hc : chans (shared s1) !! ch = Some true).
    { apply step_inv in Hstep as [_ Hstep].
      destruct Hstep as [u c Hu|u c p a w p' Hu Hp Hr
        |sd' rc cs c v ks cr pr ps' pr' Hsd Hrc Hne Hrv Hq Hch' Hrs Hrr|u c c' tm k p' Hu Htm Hr
        |u c r' Hu|d Hd|tp thp Htp Hqp Hmw].
      all: event_in Hev.
      injection Hev as -> ->. destruct p; perform_cases Hp; now injection Hp as ->. }
    destruct (closed_origin _ _ _ _ _ _ Hr1 Hc) as (ti & Hti).
    exists ti. apply (close_performed _ _ _ _ _ H0 Hrun).
    rewrite E. apply in_or_app. right. now right. }
  assert (Hpost : forall sd ch x, In (ARecvFrom sd ch x) (since_call t h) ->
            x = 1 /\ performed (init l n now) h sd CSignal (ASend ch 1)).
  { intros sd ch x Hin. apply since_call_in in Hin.
    exact (post_performed _ _ _ _ _ _ _ H0 Hrun Hin). }
  unfold woken_by. revert Hsh Haf Hcap Hclose Hpost.
  generalize (since_call t h). intros acts Hsh Haf Hcap Hclose Hpost.
  by_shape Hsh Haf.
  all: inversion Haf; subst; eexists; (split; [reflexivity|]); simpl.
  all: split; [split; try congruence; eauto; intros (? & ? & ?); congruence|].
  all: split; [split; try congruence; eauto; intros (? & ? & ?); congruence|].
  - exists v, ch, WClose, v'. split_and!; try reflexivity.
    + apply Hcap. simpl. tauto.
    + intros _. apply Hclose. simpl. tauto.
    + intros sd x E. discriminate E.
  - exists v, ch, (WPost s0 x), v'. split_and!; try reflexivity.
    + apply Hcap. simpl. tauto.
    + intros E. discriminate E.
    + intros sd y E. injection E as <- <-. apply (Hpost s0 ch x). simpl. tauto.
Qed.

Lemma Wait_result_witness :
  run (init 0 2 0) (fst (outcome (init 0 2 0) interrupted_wait))
      (snd (outcome (init 0 2 0) interrupted_wait)) /\
  pool (snd (outcome (init 0 2 0) interrupted_wait)) !! T0
    = Some (Active CWait (Ret (RBool true))) /\
  exists b, RBool true = RBool b /\
    (b = true <-> woken_by T0 (fst (outcome (init 0 2 0) interrupted_wait)) = Some WClose) /\
    (b = false <->
     exists sd x, woken_by T0 (fst (outcome (init 0 2 0) interrupted_wait)) = Some (WPost sd x)) /\
    exists v ch w v',
      rev (since_call T0 (fst (outcome (init 0 2 0) interrupted_wait)))
        = [AAdd 1 v; AGetSignal ch; AUnlock; wake_act ch w; ALock; AAdd (U64.not 0) v'] /\
      captured (init 0 2 0) (fst (outcome (init 0 2 0) interrupted_wait)) T0 ch /\
      woken_by T0 (fst (outcome (init 0 2 0) interrupted_wait)) = Some w /\
      b = is_close w /\
      (w = WClose ->
         exists ti, performed (init 0 2 0) (fst (outcome (init 0 2 0) interrupted_wait))
                      ti CInterrupt (AClose ch)) /\
      (forall sd x, w = WPost sd x ->
         x = 1 /\ performed (init 0 2 0) (fst (outcome (init 0 2 0) interrupted_wait))
                    sd CSignal (ASend ch 1)).
Proof.
  assert (Hrun : run (init 0 2 0) (fst (outcome (init 0 2 0) interrupted_wait))
                     (snd (outcome (init 0 2 0) interrupted_wait))).
  { apply (exec_init_run _ interrupted_wait). reflexivity. }
  assert (Ht : pool (snd (outcome (init 0 2 0) interrupted_wait)) !! T0
               = Some (Active CWait (Ret (RBool true)))) by reflexivity.
  split; [exact Hrun|]. split; [exact Ht|].
  exact (Wait_result 0 2 0 _ _ T0 (RBool true) Hrun Ht).
Defined.

(** * [Interrupt] and the waiters of the closed generation *)

(** C4, amended.  In executions in which waits are called with the lock
    held: a call of [Interrupt] takes the lock, reads the stored channel,
    closes it, makes a new channel, stores it and only then releases the
    lock; the channel it closes is the stored one and is open, the one it
    stores is open; a channel that has been closed was closed by an
    [Interrupt] and stays closed.  A [Wait] at its receive on a closed
    channel, asleep or not, can take the close at once, can be woken in no
    other way, and once the lock is free runs to its return with [true]; a
    [Wait] that captured the channel before the close and has returned
    has returned [true].  A [WaitWithTimeout] at its select on a closed
    channel can likewise take the close at once and then runs to its
    return with [interrupted = true]; it can take the timer case instead
    exactly when the timer is due, and then it returns [(0, false)].  A
    wait that is about to capture the generation finds the stored channel
    open, and a receive on an open channel does not complete by itself. *)
Theorem Interrupt_replaces_generation l n now h s :
  run_ok (init l n now) h s ->
  (forall t r, pool s !! t = Some (Active CInterrupt (Ret r)) ->
     exists ch ch',
       rev (since_call t h)
         = [ALock; AGetSignal ch; AClose ch; AMake ch'; ASetSignal ch'; AUnlock]) /\
  (forall t ch k, pool s !! t = Some (Active CInterrupt (CloseChan ch k)) ->
     ch = signal (cond (shared s)) /\ chans (shared s) !! ch = Some false /\
     holder (shared s) = Some t) /\
  (forall t ch k, pool s !! t = Some (Active CInterrupt (SetSignal ch k)) ->
     chans (shared s) !! ch = Some false /\ holder (shared s) = Some t) /\
  (forall h1 h2 ti ch t v r,
     h = h2 ++ (ti, AClose ch) :: h1 ->
     since_call t h1 = entered v ch ->
     no_call t h2 ->
     pool s !! t = Some (Active CWait (Ret r)) ->
     r = RBool true) /\
  (forall h1 h2 ti ch t d v pre r,
     h = h2 ++ (ti, AClose ch) :: h1 ->
     since_call t h1 = pre ++ entered v ch ->
     last_wake pre = None ->
     no_call t h2 ->
     pool s !! t = Some (Active (CWaitWithTimeout d) (Ret r)) ->
     (exists rem, r = RDurBool rem true) \/
     (r = RDurBool 0 false /\ woken_by t h = Some WTimer)) /\
  (forall t c k, pool s !! t = Some (Active c (GetSignal k)) ->
     is_wait c = true ->
     chans (shared s) !! signal (cond (shared s)) = Some false /\
     forall u ths k',
       perform (R := retval) u (shared s) ths (Recv (signal (cond (shared s))) k') = None) /\
  (forall ti ch, In (ti, AClose ch) h ->
     chans (shared s) !! ch = Some true /\
     performed (init l n now) h ti CInterrupt (AClose ch)) /\
  (forall t ch k,
     pool s !! t = Some (Active CWait (Recv ch k)) ->
     chans (shared s) !! ch = Some true ->
     crashed (pool s) = false ->
     step s (Sched t)
       = Some ([(t, ARecvClosed ch)],
               mkState (shared s) (<[t := Active CWait (k (0, false))]> (pool s))
                       (<[t := false]> (queued s))) /\
     (forall sd, step s (Deliver sd t) = None) /\
     step s (Park t) = None /\
     (holder (shared s) = None ->
      exists h' s',
        exec s h [Sched t; Sched t; Sched t] = Some (h', s') /\
        pool s' !! t = Some (Active CWait (Ret (RBool true))))) /\
  (forall t d ch tm k,
     pool s !! t = Some (Active (CWaitWithTimeout d) (SelectRecvTimer ch tm k)) ->
     chans (shared s) !! ch = Some true ->
     crashed (pool s) = false ->
     step s (Sched t)
       = Some ([(t, ARecvClosed ch)],
               mkState (shared s)
                       (<[t := Active (CWaitWithTimeout d) (k (Some (0, false)))]> (pool s))
                       (<[t := false]> (queued s))) /\
     (forall sd, step s (Deliver sd t) = None) /\
     step s (Park t) = None /\
     (is_Some (step s (Timeout t)) <-> tm <= clock (shared s)) /\
     (holder (shared s) = None ->
      exists h' s' rem,
        exec s h [Sched t; Sched t; Sched t; Sched t] = Some (h', s') /\
        pool s' !! t = Some (Active (CWaitWithTimeout d) (Ret (RDurBool rem true))))).
Proof.
  intros Hok. pose proof (run_ok_safe _ _ _ _ _ Hok) as Hs.
  pose proof (run_ok_run _ _ _ Hok) as Hrun.
  split_and!.
  - intros t r Ht.
    destruct (run_shape _ _ _ _ _ _ (init_all_idle l n now) Hrun Ht) as [Hsh Haf].
    revert Hsh Haf. generalize (since_call t h). intros acts Hsh Haf.
    by_shape Hsh Haf. eauto.
  - intros t ch k Ht. destruct (safe_close s Hs t ch k Ht) as [H1 H2].
    split_and!; try assumption. apply (safe_lock s Hs t _ Ht). reflexivity.
  - intros t ch k Ht. split; [eapply safe_store; eauto|].
    apply (safe_lock s Hs t _ Ht). reflexivity.
  - intros h1 h2 ti ch t v r -> Hh1 Hno Ht.
    destruct (run_shape _ _ _ _ _ _ (init_all_idle l n now) Hrun Ht) as [Hsh Haf].
    rewrite since_call_close, Hh1 in Hsh, Haf by assumption.
    match type of Hsh with
    | shape _ (?m ++ _) =>
        assert (Hpost : forall sd x, ~ In (ARecvFrom sd ch x) m)
          by (intros sd x; eapply no_post_after_close; exact Hrun);
        revert Hsh Haf Hpost; generalize m
    end.
    intros acts2 Hsh Haf Hpost.
    assert (Hsh' : exists acts, Some acts = Some (acts2 ++ entered v ch) /\ shape CWait acts
              /\ after (call_prog CWait) acts = Some (Ret r))
      by (eexists; split_and!; [reflexivity|eassumption|eassumption]).
    clear Hsh Haf. destruct Hsh' as (acts & Hacts & Hsh & Haf).
    by_shape Hsh Haf; inversion Haf; subst; try reflexivity.
    exfalso. injection Hacts as Hacts.
    change ([AAdd (U64.not 0) v'; ALock; ARecvFrom s0 ch0 x] ++ entered v0 ch0
            = acts2 ++ entered v ch) in Hacts.
    apply app_inj_2 in Hacts as [Ha Hb]; [|reflexivity].
    inversion Hb; subst. apply (Hpost s0 x). simpl. tauto.
  - intros h1 h2 ti ch t d v pre r -> Hh1 Hpre Hno Ht.
    destruct (run_shape _ _ _ _ _ _ (init_all_idle l n now) Hrun Ht) as [Hsh Haf].
    unfold woken_by.
    rewrite since_call_close, Hh1 in Hsh, Haf |- * by assumption.
    match type of Hsh with
    | shape _ (?m ++ _) =>
        assert (Hpost : forall sd x, ~ In (ARecvFrom sd ch x) m)
          by (intros sd x; eapply no_post_after_close; exact Hrun);
        revert Hsh Haf Hpost; generalize m
    end.
    intros acts2 Hsh Haf Hpost.
    assert (Hsh' : exists acts, Some acts = Some (acts2 ++ pre ++ entered v ch)
              /\ shape (CWaitWithTimeout d) acts
              /\ after (call_prog (CWaitWithTimeout d)) acts = Some (Ret r))
      by (eexists; split_and!; [reflexivity|eassumption|eassumption]).
    clear Hsh Haf. destruct Hsh' as (acts & Hacts & Hsh & Haf).
    by_shape Hsh Haf; inversion Haf; subst; injection Hacts as Hacts.
    + left. eauto.
    + exfalso.
      change ([AAdd (U64.not 0) v'; ALock; ANow e; ARecvFrom s0 ch0 x; AAfter tm; ANow b]
              ++ entered v0 ch0 = acts2 ++ pre ++ entered v ch) in Hacts.
      rewrite app_assoc in Hacts.
      apply app_inj_2 in Hacts as [Ha Hb]; [|reflexivity].
      inversion Hb; subst.
      assert (Hin : In (ARecvFrom s0 ch x) (acts2 ++ pre)) by (rewrite <- Ha; simpl; tauto).
      apply in_app_or in Hin as [Hin|Hin]; [now apply (Hpost s0 x)|].
      pose proof (last_wake_none _ _ Hpre Hin). discriminate.
    + right. split; [reflexivity|]. rewrite <- Hacts. reflexivity.
  - intros t c k Ht Hc.
    assert (Hopen : chans (shared s) !! signal (cond (shared s)) = Some false).
    { apply (holder_sees_open s t _ Hs Ht); destruct c; try discriminate; reflexivity. }
    split; [assumption|]. intros u ths k'. cbn [perform]. now rewrite Hopen.
  - intros ti ch Hin. split; [eapply closed_stays; eauto|].
    apply (close_performed _ _ _ _ _ (init_all_idle l n now) Hrun Hin).
  - intros t ch k Ht Hch Hnc.
    destruct (run_shape _ _ _ _ _ _ (init_all_idle l n now) Hrun Ht) as [Hsh Haf].
    destruct (run_counting _ _ _ _ _ Hrun) as [Hc _].
    count_facts s Hc Hnc Ht.
    assert (Hlt' : (t < length (pool s))%nat) by (eapply lookup_lt_Some; eauto).
    assert (Hdec : U64.add (hasWaiters (cond (shared s))) (U64.not 0) <> U64.MaxUint64).
    { rewrite add_minus_one by (rewrite max_value; lia). rewrite max_value. lia. }
    assert (H1 : step s (Sched t)
                 = Some ([(t, ARecvClosed ch)],
                         mkState (shared s) (<[t := Active CWait (k (0, false))]> (pool s))
                                 (<[t := false]> (queued s)))).
    { apply (step_sched_eq s t CWait (Recv ch k) (ARecvClosed ch) (shared s) (k (0, false)));
        try assumption.
      - cbn [perform]. now rewrite Hch.
      - cbn [react]. case_decide; [reflexivity|congruence]. }
    split_and!.
    + exact H1.
    + intros sd. unfold step, step_deliver. rewrite Hnc.
      destruct (pool s !! sd) as [[|cs []]|]; try reflexivity.
      rewrite Ht. cbn [receiving].
      destruct (decide (c = ch)) as [->|Hne].
      * rewrite (bool_decide_eq_false_2 (chans (shared s) !! ch = Some false)) by congruence.
        now rewrite andb_false_r.
      * rewrite (bool_decide_eq_false_2 (ch = c)) by congruence.
        now rewrite andb_false_r.
    + unfold step, step_park. rewrite Hnc, Ht.
      destruct (queued s !! t) as [[|]|]; try reflexivity.
      cbn [must_wait]. now rewrite bool_decide_eq_false_2 by congruence.
    + intros Hfree. revert Hsh Haf H1. generalize (since_call t h). intros acts Hsh Haf H1.
      by_shape Hsh Haf. inversion Haf; subst. clear Haf Hsh.
      do 2 eexists. split.
      * cbn [exec]. rewrite H1. cbn [exec].
        erewrite step_sched_eq;
          [| pool_calm | pool_lookup | simpl; rewrite Hfree; reflexivity | reflexivity].
        cbn [exec].
        erewrite step_sched_eq;
          [| pool_calm | pool_lookup | reflexivity
           | simpl; rewrite (eqb_ne _ _ Hdec); reflexivity].
        reflexivity.
      * pool_lookup.
  - intros t d ch tm k Ht Hch Hnc.
    destruct (run_shape _ _ _ _ _ _ (init_all_idle l n now) Hrun Ht) as [Hsh Haf].
    destruct (run_counting _ _ _ _ _ Hrun) as [Hc _].
    count_facts s Hc Hnc Ht.
    assert (Hlt' : (t < length (pool s))%nat) by (eapply lookup_lt_Some; eauto).
    assert (Hdec : U64.add (hasWaiters (cond (shared s))) (U64.not 0) <> U64.MaxUint64).
    { rewrite add_minus_one by (rewrite max_value; lia). rewrite max_value. lia. }
    assert (H1 : step s (Sched t)
                 = Some ([(t, ARecvClosed ch)],
                         mkState (shared s)
                           (<[t := Active (CWaitWithTimeout d) (k (Some (0, false)))]> (pool s))
                           (<[t := false]> (queued s)))).
    { apply (step_sched_eq s t (CWaitWithTimeout d) (SelectRecvTimer ch tm k)
               (ARecvClosed ch) (shared s) (k (Some (0, false)))); try assumption.
      - cbn [perform]. now rewrite Hch.
      - cbn [react]. case_decide; [reflexivity|congruence]. }
    split_and!.
    + exact H1.
    + intros sd. unfold step, step_deliver. rewrite Hnc.
      destruct (pool s !! sd) as [[|cs []]|]; try reflexivity.
      rewrite Ht. cbn [receiving].
      destruct (decide (c = ch)) as [->|Hne].
      * rewrite (bool_decide_eq_false_2 (chans (shared s) !! ch = Some false)) by congruence.
        now rewrite andb_false_r.
      * rewrite (bool_decide_eq_false_2 (ch = c)) by congruence.
        now rewrite andb_false_r.
    + unfold step, step_park. rewrite Hnc, Ht.
      destruct (queued s !! t) as [[|]|]; try reflexivity.
      cbn [must_wait]. now rewrite bool_decide_eq_false_2 by congruence.
    + unfold step, step_timeout. rewrite Hnc, Ht. cbn [react].
      case_bool_decide as Hdue; split; intros Hx;
        first [ assumption | eexists; reflexivity | contradiction
              | destruct Hx as [? Hx]; discriminate Hx ].
    + intros Hfree. revert Hsh Haf H1. generalize (since_call t h). intros acts Hsh Haf H1.
      by_shape Hsh Haf. inversion Haf; subst. clear Haf Hsh.
      do 3 eexists. split.
      * cbn [exec]. rewrite H1. cbn [exec].
        erewrite step_sched_eq;
          [| pool_calm | pool_lookup | reflexivity | reflexivity].
        cbn [exec].
        erewrite step_sched_eq;
          [| pool_calm | pool_lookup | simpl; rewrite Hfree; reflexivity | reflexivity].
        cbn [exec].
        erewrite step_sched_eq;
          [| pool_calm | pool_lookup | reflexivity
           | simpl; rewrite (eqb_ne _ _ Hdec); reflexivity].
        reflexivity.
      * pool_lookup.
Qed.

Lemma Interrupt_replaces_generation_witness :
  run_ok (init 0 2 0) (fst (outcome (init 0 2 0) interrupt_done))
         (snd (outcome (init 0 2 0) interrupt_done)) /\
  pool (snd (outcome (init 0 2 0) interrupt_done)) !! T1
    = Some (Active CInterrupt (Ret RUnit)) /\
  (exists ch ch',
     rev (since_call T1 (fst (outcome (init 0 2 0) interrupt_done)))
       = [ALock; AGetSignal ch; AClose ch; AMake ch'; ASetSignal ch'; AUnlock]) /\
  (exists k,
     pool (snd (outcome (init 0 2 0) interrupt_done)) !! T0
       = Some (Active CWait (Recv 0%nat k))) /\
  queued (snd (outcome (init 0 2 0) interrupt_done)) !! T0 = Some true /\
  chans (shared (snd (outcome (init 0 2 0) interrupt_done))) !! 0%nat = Some true /\
  exists h' s',
    exec (snd (outcome (init 0 2 0) interrupt_done))
         (fst (outcome (init 0 2 0) interrupt_done)) [Sched T0; Sched T0; Sched T0]
      = Some (h', s') /\
    pool s' !! T0 = Some (Active CWait (Ret (RBool true))).
Proof.
  assert (Hrun : run_ok (init 0 2 0) (fst (outcome (init 0 2 0) interrupt_done))
                        (snd (outcome (init 0 2 0) interrupt_done))).
  { apply (exec_run_ok (init 0 2 0) [] (init 0 2 0) interrupt_done).
    - constructor.
    - vm_compute. tauto.
    - reflexivity. }
  assert (Ht : pool (snd (outcome (init 0 2 0) interrupt_done)) !! T1
               = Some (Active CInterrupt (Ret RUnit))) by reflexivity.
  assert (Hw : exists k, pool (snd (outcome (init 0 2 0) interrupt_done)) !! T0
               = Some (Active CWait (Recv 0%nat k))) by (eexists; reflexivity).
  assert (Hc : chans (shared (snd (outcome (init 0 2 0) interrupt_done))) !! 0%nat
               = Some true) by reflexivity.
  destruct (Interrupt_replaces_generation 0 2 0 _ _ Hrun)
    as (A1 & _ & _ & _ & _ & _ & _ & A8 & _).
  split; [exact Hrun|]. split; [exact Ht|]. split; [exact (A1 T1 RUnit Ht)|].
  split; [exact Hw|]. split; [reflexivity|]. split; [exact Hc|].
  destruct Hw as [k Hk].
  destruct (A8 T0 0%nat k Hk Hc eq_refl) as (_ & _ & _ & A). exact (A eq_refl).
Defined.

(** * [Signal] and the goroutines asleep in a receive *)

Lemma asleep_lookup ths q r :
  asleep ths q !! r =
  match ths !! r, q !! r with
  | Some th, Some b => Some (if b : bool then th else Idle)
  | _, _ => None
  end.
Proof.
  revert q r. induction ths as [|th ths IH]; intros [|b q] [|r]; simpl; try reflexivity.
  - now destruct (ths !! r).
  - apply IH.
Qed.

Lemma blocked_false c ths q r th :
  parked c (asleep ths q) = false ->
  ths !! r = Some th -> q !! r = Some true -> receiving c th = false.
Proof.
  intros Hp Hr Hq. eapply (existsb_lookup_false _ _ r); [exact Hp|].
  now rewrite asleep_lookup, Hr, Hq.
Qed.

Lemma blocked_true c ths q :
  parked c (asleep ths q) = true ->
  exists r th, ths !! r = Some th /\ q !! r = Some true /\ receiving c th = true.
Proof.
  intros Hp. apply existsb_lookup_true in Hp as (r & th & Hr & Hrecv).
  rewrite asleep_lookup in Hr.
  destruct (ths !! r) as [th'|] eqn:E1; [|discriminate].
  destruct (q !! r) as [[|]|] eqn:E2; try discriminate; injection Hr as <-.
  - eauto.
  - discriminate Hrecv.
Qed.

Lemma blocked_set c ths q t th :
  parked c (asleep ths q) = false -> receiving c th = false ->
  parked c (asleep (<[t := th]> ths) q) = false.
Proof.
  intros Hp Hth. destruct (parked c (asleep (<[t := th]> ths) q)) eqn:E; [|reflexivity].
  apply blocked_true in E as (r & thr & Hr & Hq & Hrecv).
  destruct (decide (r = t)) as [->|Hne].
  - apply list_lookup_insert_Some in Hr as [(_ & <- & _)|(Hne & _)]; congruence.
  - rewrite list_lookup_insert_ne in Hr by congruence.
    pose proof (blocked_false _ _ _ _ _ Hp Hr Hq). congruence.
Qed.

(** Nobody to deliver to. *)
Lemma no_delivery s t c v k r :
  pool s !! t = Some (Active CSignal (SelectSendDefault c v k)) ->
  blocked c s = false -> step s (Deliver t r) = None.
Proof.
  intros Ht Hb. unfold step. destruct (crashed (pool s)); [reflexivity|].
  unfold step_deliver. rewrite Ht.
  destruct (pool s !! r) as [[|cr pr]|] eqn:Hr; try reflexivity.
  destruct (queued s !! r) as [[|]|] eqn:Hq.
  - rewrite (blocked_false _ _ _ _ _ Hb Hr Hq). now rewrite andb_false_r.
  - rewrite (bool_decide_eq_false_2 (Some false = Some true)) by discriminate.
    now rewrite andb_false_r.
  - rewrite (bool_decide_eq_false_2 (None = Some true)) by discriminate.
    now rewrite andb_false_r.
Qed.

(** C8 as stated fails: in [signal_race] nobody ever waits, and the
    [Signal] of [T0], called without the lock, panics with "send on
    closed channel". *)
Theorem Signal_harmless_claimed_fails : ~ Signal_harmless_claimed.
Proof.
  intros H.
  apply (H 0%nat 2%nat 0 (fst (outcome (init 0 2 0) signal_race))
           (snd (outcome (init 0 2 0) signal_race)) T0 closed_send).
  - apply (exec_run_ok (init 0 2 0) [] (init 0 2 0) signal_race).
    + constructor.
    + vm_compute. tauto.
    + reflexivity.
  - intros u c Hin. vm_compute in Hin.
    repeat (destruct Hin as [Hin|Hin]; [inversion Hin; reflexivity|]). destruct Hin.
  - reflexivity.
Qed.

(** C8, amended.  When [Signal] is called with the lock held (as the
    waits are), by fewer than 2^64 goroutines: it never panics; it reads
    the stored channel without waiting; at its select the channel it has
    read is still the stored one and is open; if no
    goroutine is asleep in a receive on that channel, the select takes the
    default case at once, which changes nothing but the place of [Signal]
    itself, and no delivery is possible; nothing is left in the channel, so
    a receive on it still cannot complete by itself.  Run by itself from
    its call to its return, such a [Signal] leaves the whole state as it
    found it, also when a waiter has released the lock and is not asleep
    yet: that waiter is not woken. *)
Theorem Signal_without_waiters l n now h s :
  Z.of_nat n < U64.modulus ->
  run_strict (init l n now) h s ->
  (forall t m, pool s !! t <> Some (Active CSignal (Panic m))) /\
  (forall t k,
     pool s !! t = Some (Active CSignal (GetSignal k)) ->
     step s (Sched t)
       = Some ([(t, AGetSignal (signal (cond (shared s))))],
               mkState (shared s)
                       (<[t := Active CSignal (k (signal (cond (shared s))))]> (pool s))
                       (queued s))) /\
  (forall t c v k,
     pool s !! t = Some (Active CSignal (SelectSendDefault c v k)) ->
     c = signal (cond (shared s)) /\ chans (shared s) !! c = Some false /\
     holder (shared s) = Some t /\
     (blocked c s = false ->
      step s (Sched t)
        = Some ([(t, ADefault c)],
                mkState (shared s) (<[t := Active CSignal (Ret RUnit)]> (pool s))
                        (queued s)) /\
      (forall r, step s (Deliver t r) = None) /\
      (forall u ths k', perform (R := retval) u (shared s) ths (Recv c k') = None) /\
      (forall u ths tm k',
         perform (R := retval) u (shared s) ths (SelectRecvTimer c tm k') = None))) /\
  (forall t,
     pool s !! t = Some Idle ->
     holder (shared s) = Some t ->
     blocked (signal (cond (shared s))) s = false ->
     let c := signal (cond (shared s)) in
     exec s h (signal_once t)
       = Some ([(t, AReturn RUnit); (t, ADefault c); (t, AGetSignal c);
                (t, ACall CSignal)] ++ h, s) /\
     (forall u ths k', perform (R := retval) u (shared s) ths (Recv c k') = None) /\
     (forall u ths tm k',
        perform (R := retval) u (shared s) ths (SelectRecvTimer c tm k') = None)).
Proof.
  intros Hn Hrun.
  pose proof (run_strict_calm _ _ _ _ _ Hn Hrun) as Hnc.
  pose proof (run_strict_strict _ _ _ _ _ Hrun) as Hst.
  pose proof (run_strict_ok _ _ _ Hrun) as Hok.
  pose proof (run_ok_safe _ _ _ _ _ Hok) as Hs.
  pose proof (run_ok_run _ _ _ Hok) as Hr.
  split_and!.
  - intros t m Ht. pose proof (existsb_lookup_false _ _ _ _ Hnc Ht) as H. discriminate H.
  - intros t k Ht.
    now apply (step_sched_eq s t CSignal (GetSignal k) (AGetSignal (signal (cond (shared s))))
                 (shared s) (k (signal (cond (shared s))))).
  - intros t c v k Ht.
    destruct (strict_send s Hst _ _ _ _ Ht) as [Hc Hopen].
    pose proof (strict_lock s Hst _ _ Ht eq_refl) as Hl.
    split_and!; try assumption.
    intros Hb.
    destruct (run_shape _ _ _ _ _ _ (init_all_idle l n now) Hr Ht) as [Hsh Haf].
    assert (Hk : k false = Ret RUnit).
    { revert Hsh Haf. generalize (since_call t h). intros acts Hsh Haf.
      by_shape Hsh Haf. now inversion Haf. }
    split_and!.
    + rewrite <- Hk.
      apply (step_sched_eq s t CSignal (SelectSendDefault c v k) (ADefault c) (shared s)
               (k false)); try assumption.
      * cbn [perform]. unfold blocked in Hb. now rewrite Hopen, Hb.
      * cbn [react]. case_decide; [reflexivity|congruence].
    + intros r. eapply no_delivery; eauto.
    + intros u ths k'. cbn [perform]. now rewrite Hopen.
    + intros u ths tm k'. cbn [perform]. now rewrite Hopen.
  - intros t Ht Hl Hb c. subst c. unfold blocked in Hb.
    set (c := signal (cond (shared s))) in *.
    assert (Hlt : (t < length (pool s))%nat) by (eapply lookup_lt_Some; eauto).
    assert (Hopen : chans (shared s) !! c = Some false).
    { apply (safe_open s Hs).
      destruct (existsb window (pool s)) eqn:He; [|reflexivity].
      apply existsb_lookup_true in He as (u & thu & Hu & Hwu).
      pose proof (safe_lock s Hs _ _ Hu (window_holds _ Hwu)) as H1.
      assert (u = t) by congruence. subst u.
      pose proof (eq_trans (eq_sym Hu) Ht) as E. injection E as ->. discriminate Hwu. }
    assert (Hb2 : forall th1 th2,
              receiving c th1 = false -> receiving c th2 = false ->
              parked c (asleep (<[t := th2]> (<[t := th1]> (pool s))) (queued s)) = false).
    { intros th1 th2 H1 H2. apply blocked_set; [|exact H2]. now apply blocked_set. }
    split_and!.
    + unfold signal_once. cbn [exec]. rewrite step_call_eq by assumption.
      unfold set_thread. cbn [exec shared pool queued call_prog].
      erewrite step_sched_eq; [| pool_calm | pool_lookup | reflexivity | reflexivity].
      cbn [exec after_act wakes].
      erewrite step_sched_eq;
        [| pool_calm | pool_lookup
         | cbn [perform shared pool queued]; fold c; rewrite Hopen;
           rewrite Hb2 by reflexivity; reflexivity
         | cbn [react]; fold c; case_decide; [reflexivity|congruence] ].
      cbn [exec after_act wakes].
      erewrite step_return_eq; [| pool_calm | pool_lookup].
      unfold set_thread. cbn [shared pool queued].
      rewrite !list_insert_insert_eq. rewrite list_insert_id by assumption.
      now destruct s.
    + intros u ths k'. cbn [perform]. now rewrite Hopen.
    + intros u ths tm k'. cbn [perform]. now rewrite Hopen.
Qed.

Lemma Signal_without_waiters_witness :
  Z.of_nat 2 < U64.modulus /\
  run_strict (init 0 2 0) (fst (outcome (init 0 2 0) waiter_in_gap))
             (snd (outcome (init 0 2 0) waiter_in_gap)) /\
  (exists k, pool (snd (outcome (init 0 2 0) waiter_in_gap)) !! T0
             = Some (Active CWait (Recv 0%nat k))) /\
  queued (snd (outcome (init 0 2 0) waiter_in_gap)) !! T0 = Some false /\
  pool (snd (outcome (init 0 2 0) waiter_in_gap)) !! T1 = Some Idle /\
  holder (shared (snd (outcome (init 0 2 0) waiter_in_gap))) = Some T1 /\
  blocked (signal (cond (shared (snd (outcome (init 0 2 0) waiter_in_gap)))))
          (snd (outcome (init 0 2 0) waiter_in_gap)) = false /\
  exec (snd (outcome (init 0 2 0) waiter_in_gap))
       (fst (outcome (init 0 2 0) waiter_in_gap)) (signal_once T1)
    = Some ([(T1, AReturn RUnit); (T1, ADefault 0%nat); (T1, AGetSignal 0%nat);
             (T1, ACall CSignal)] ++ fst (outcome (init 0 2 0) waiter_in_gap),
            snd (outcome (init 0 2 0) waiter_in_gap)).
Proof.
  assert (Hn : Z.of_nat 2 < U64.modulus) by reflexivity.
  assert (Hrun : run_strict (init 0 2 0) (fst (outcome (init 0 2 0) waiter_in_gap))
                            (snd (outcome (init 0 2 0) waiter_in_gap))).
  { apply (exec_run_strict (init 0 2 0) [] (init 0 2 0) waiter_in_gap).
    - constructor.
    - vm_compute. tauto.
    - reflexivity. }
  assert (Ht : pool (snd (outcome (init 0 2 0) waiter_in_gap)) !! T1 = Some Idle)
    by reflexivity.
  assert (Hl : holder (shared (snd (outcome (init 0 2 0) waiter_in_gap))) = Some T1)
    by reflexivity.
  assert (Hb : blocked (signal (cond (shared (snd (outcome (init 0 2 0) waiter_in_gap)))))
                       (snd (outcome (init 0 2 0) waiter_in_gap)) = false)
    by reflexivity.
  split; [exact Hn|]. split; [exact Hrun|]. split; [eexists; reflexivity|].
  split; [reflexivity|]. split; [exact Ht|]. split; [exact Hl|]. split; [exact Hb|].
  destruct (Signal_without_waiters 0 2 0 _ _ Hn Hrun) as (_ & _ & _ & A).
  exact (proj1 (A T1 Ht Hl Hb)).
Defined.

Lemma receiving_react c th sd v :
  receiving c th = true ->
  exists cr pr pr', th = Active cr pr /\ react pr (ARecvFrom sd c v) = Some pr'.
Proof.
  destruct th as [|cr pr]; [discriminate|]. intros H.
  destruct pr; try discriminate H; simpl in H; apply bool_decide_eq_true in H; subst;
    do 3 eexists; (split; [reflexivity|]); simpl; case_decide; try congruence; reflexivity.
Qed.

(** X4.  A goroutine executing [Signal] that has read the channel [c]
    from the condition is at the select that sends 1 on [c].  If [c] is
    open and some goroutine is asleep in a receive on it, the select
    cannot take the default case; it can deliver, and a delivery hands the
    value 1 to exactly one goroutine, which was asleep in the receive of a
    wait on [c] and is not asleep afterwards; it leaves the shared state as
    it was, brings [Signal] to its return, and leaves every other
    goroutine where it was. *)
Theorem Signal_wakes_exactly_one l n now h s t p c :
  run (init l n now) h s ->
  crashed (pool s) = false ->
  pool s !! t = Some (Active CSignal p) ->
  since_call t h = [AGetSignal c] ->
  chans (shared s) !! c = Some false ->
  blocked c s = true ->
  p = SelectSendDefault c 1 (fun _ => Ret RUnit) /\
  step s (Sched t) = None /\
  (exists r, is_Some (step s (Deliver t r))) /\
  forall r evs s',
    step s (Deliver t r) = Some (evs, s') ->
    evs = [(r, ARecvFrom t c 1); (t, ASend c 1)] /\
    shared s' = shared s /\
    (exists cr pr, pool s !! r = Some (Active cr pr) /\ is_wait cr = true /\
                   receiving c (Active cr pr) = true) /\
    queued s !! r = Some true /\
    queued s' = <[r := false]> (queued s) /\
    pool s' !! t = Some (Active CSignal (Ret RUnit)) /\
    forall u, u <> t -> u <> r -> pool s' !! u = pool s !! u.
Proof.
  intros Hrun Hnc Ht Hsince Hopen Hb.
  pose proof (init_all_idle l n now) as H0.
  destruct (run_shape _ _ _ _ _ _ H0 Hrun Ht) as [_ Haf].
  rewrite Hsince in Haf. simpl in Haf. injection Haf as <-.
  split_and!.
  - reflexivity.
  - unfold step, step_sched. rewrite Hnc, Ht. cbn [perform].
    unfold blocked in Hb. now rewrite Hopen, Hb.
  - apply blocked_true in Hb as (r & th & Hr & Hq & Hrecv).
    destruct (receiving_react c th t 1 Hrecv) as (cr & pr & pr' & -> & Hreact).
    assert (Hne : t <> r).
    { intros E. subst. pose proof (eq_trans (eq_sym Hr) Ht) as E'.
      injection E' as -> ->. discriminate Hrecv. }
    exists r. unfold step, step_deliver. unfold tid, chan in *.
    rewrite Hnc, Ht, Hr, Hrecv, Hq.
    rewrite bool_decide_eq_true_2 by assumption.
    rewrite bool_decide_eq_true_2 by reflexivity.
    rewrite bool_decide_eq_true_2 by assumption.
    cbn [andb]. rewrite Hreact. cbn [react].
    case_decide; [eauto|tauto].
  - intros r evs s' Hstep. apply step_inv in Hstep as [_ Hstep].
    inversion Hstep
      as [| |sd rc cs c' v ks cr pr ps' pr' Hsd Hrc Hne Hrv Hq Hch Hrs Hrr| | | |];
      subst.
    rewrite Ht in Hsd. inversion Hsd; subst.
    simpl in Hrs. case_decide; [|tauto]. injection Hrs as <-.
    split_and!; try reflexivity; try assumption.
    + exists cr, pr. split_and!; try assumption.
      destruct (run_shape _ _ _ _ _ _ H0 Hrun Hrc) as [Hsh Haf].
      revert Hsh Haf. generalize (since_call r h). intros acts Hsh Haf.
      destruct cr; try reflexivity; exfalso;
        by_shape Hsh Haf; inversion Haf; subst; discriminate Hrv.
    + cbn [pool]. rewrite list_lookup_insert_ne by congruence.
      apply list_lookup_insert_eq. eapply lookup_lt_Some; eauto.
    + intros u H1 H2. cbn [pool]. now rewrite !list_lookup_insert_ne by congruence.
Qed.

Lemma Signal_wakes_exactly_one_witness :
  run (init 0 2 0) (fst (outcome (init 0 2 0) signal_pending))
      (snd (outcome (init 0 2 0) signal_pending)) /\
  crashed (pool (snd (outcome (init 0 2 0) signal_pending))) = false /\
  pool (snd (outcome (init 0 2 0) signal_pending)) !! T1
    = Some (Active CSignal (SelectSendDefault 0%nat 1 (fun _ => Ret RUnit))) /\
  since_call T1 (fst (outcome (init 0 2 0) signal_pending)) = [AGetSignal 0%nat] /\
  chans (shared (snd (outcome (init 0 2 0) signal_pending))) !! 0%nat = Some false /\
  blocked 0%nat (snd (outcome (init 0 2 0) signal_pending)) = true /\
  step (snd (outcome (init 0 2 0) signal_pending)) (Sched T1) = None.
Proof.
  assert (Hrun : run (init 0 2 0) (fst (outcome (init 0 2 0) signal_pending))
                     (snd (outcome (init 0 2 0) signal_pending))).
  { apply (exec_init_run _ signal_pending). reflexivity. }
  assert (Hnc : crashed (pool (snd (outcome (init 0 2 0) signal_pending))) = false)
    by reflexivity.
  assert (Ht : pool (snd (outcome (init 0 2 0) signal_pending)) !! T1
               = Some (Active CSignal (SelectSendDefault 0%nat 1 (fun _ => Ret RUnit))))
    by reflexivity.
  assert (Hs : since_call T1 (fst (outcome (init 0 2 0) signal_pending))
               = [AGetSignal 0%nat]) by (vm_compute; reflexivity).
  assert (Ho : chans (shared (snd (outcome (init 0 2 0) signal_pending))) !! 0%nat
               = Some false) by reflexivity.
  assert (Hp : blocked 0%nat (snd (outcome (init 0 2 0) signal_pending)) = true)
    by reflexivity.
  split; [exact Hrun|]. split; [exact Hnc|]. split; [exact Ht|]. split; [exact Hs|].
  split; [exact Ho|]. split; [exact Hp|].
  exact (proj1 (proj2 (Signal_wakes_exactly_one 0 2 0 _ _ T1 _ 0%nat Hrun Hnc Ht Hs Ho Hp))).
Defined.
